(** * Reactive video pipeline and stream registry

    A shallow embedding of [reactive_video_processor.py] (the bounded
    stream processor, its operators, the per-source supervisor and the
    pipeline coordinator) and of the [VideoStreamer] registry of
    [streaming_api.py], followed by the properties established for them.

    Conventions of the embedding:
    - a Python [int] is a [Z]; [bytes] is a [list byte]; a [str] is the list
      of its code points;
    - a call that may raise returns a [result];
    - an async generator is the list of the values it yields followed by the
      way it ends (exhausted, or an exception raised into its consumer);
    - [time.time()] and [datetime.now()] readings, and the order in which
      concurrently awaited tasks complete, are not determined by the program:
      they are section variables, so every statement holds for all of them. *)

From Stdlib Require Import ZArith NArith Lia List Strings.Byte DecimalString.
From stdpp Require Import gmap strings list.

(** ** Python values *)

Inductive Exception : Type :=
| ValueError (msg : string)
| UnicodeDecodeError
| UnicodeEncodeError
| RuntimeError (msg : string)
| OSError (msg : string).

Inductive result (A : Type) : Type :=
| Return (a : A)
| Raise (e : Exception).
Arguments Return {A} a.
Arguments Raise {A} e.

#[export] Instance result_ret : MRet result := fun A a => Return a.
#[export] Instance result_bind : MBind result := fun A B k r =>
  match r with
  | Return a => k a
  | Raise e => Raise e
  end.

Definition succeeds {A} (r : result A) : bool :=
  match r with
  | Return _ => true
  | Raise _ => false
  end.

(** Clock readings.  The source stores floats; only their provenance matters
    here, never their arithmetic. *)
Definition timestamp : Type := Z.

Definition len {A} (l : list A) : Z := Z.of_nat (length l).

(** [range(stop)] *)
Definition range (stop : Z) : list Z := map Z.of_nat (seq 0 (Z.to_nat stop)).

(** *** [str], [bytes] and the UTF-8 codec behind [encode()] / [decode()] *)

Definition str : Type := list N.

(** An ASCII literal of the source as a [str]. *)
Definition literal (s : string) : str := map Byte.to_N (String.list_byte_of_string s).

(** [f"{n}"] for an [int]. *)
Definition format_int (n : Z) : str := literal (NilEmpty.string_of_int (Z.to_int n)).

Definition byte_of_N (n : N) : byte := default x00 (Byte.of_N n).

Definition encode_point (c : N) : result (list byte) :=
  if (c <? 0x80)%N then Return [byte_of_N c]
  else if (c <? 0x800)%N then
    Return [byte_of_N (0xC0 + c / 64); byte_of_N (0x80 + c mod 64)]
  else if ((0xD800 <=? c) && (c <=? 0xDFFF))%N then Raise UnicodeEncodeError
  else if (c <? 0x10000)%N then
    Return [byte_of_N (0xE0 + c / 4096); byte_of_N (0x80 + (c / 64) mod 64);
            byte_of_N (0x80 + c mod 64)]
  else if (c <? 0x110000)%N then
    Return [byte_of_N (0xF0 + c / 262144); byte_of_N (0x80 + (c / 4096) mod 64);
            byte_of_N (0x80 + (c / 64) mod 64); byte_of_N (0x80 + c mod 64)]
  else Raise UnicodeEncodeError.

(** [s.encode()] *)
Fixpoint encode (s : str) : result (list byte) :=
  match s with
  | [] => Return []
  | c :: s' =>
      bs ← encode_point c;
      rest ← encode s';
      Return (bs ++ rest)
  end.

Definition within (lo hi : N) (b : byte) : bool :=
  ((lo <=? Byte.to_N b) && (Byte.to_N b <=? hi))%N.

Definition low6 (b : byte) : N := (Byte.to_N b mod 64)%N.

(** [b.decode()]: strict UTF-8, the well-formed byte sequences of the Unicode
    standard (no overlong forms, no surrogates, nothing above U+10FFFF). *)
Fixpoint decode (bs : list byte) : result str :=
  match bs with
  | [] => Return []
  | b0 :: r0 =>
      if within 0x00 0x7F b0 then
        s ← decode r0; Return (Byte.to_N b0 :: s)
      else if within 0xC2 0xDF b0 then
        match r0 with
        | b1 :: r1 =>
            if within 0x80 0xBF b1 then
              s ← decode r1;
              Return (((Byte.to_N b0 mod 32) * 64 + low6 b1)%N :: s)
            else Raise UnicodeDecodeError
        | _ => Raise UnicodeDecodeError
        end
      else if within 0xE0 0xEF b0 then
        match r0 with
        | b1 :: b2 :: r2 =>
            let lo := if within 0xE0 0xE0 b0 then 0xA0%N else 0x80%N in
            let hi := if within 0xED 0xED b0 then 0x9F%N else 0xBF%N in
            if within lo hi b1 && within 0x80 0xBF b2 then
              s ← decode r2;
              Return (((Byte.to_N b0 mod 16) * 4096 + low6 b1 * 64 + low6 b2)%N :: s)
            else Raise UnicodeDecodeError
        | _ => Raise UnicodeDecodeError
        end
      else if within 0xF0 0xF4 b0 then
        match r0 with
        | b1 :: b2 :: b3 :: r3 =>
            let lo := if within 0xF0 0xF0 b0 then 0x90%N else 0x80%N in
            let hi := if within 0xF4 0xF4 b0 then 0x8F%N else 0xBF%N in
            if within lo hi b1 && within 0x80 0xBF b2 && within 0x80 0xBF b3 then
              s ← decode r3;
              Return (((Byte.to_N b0 mod 8) * 262144 + low6 b1 * 4096
                       + low6 b2 * 64 + low6 b3)%N :: s)
            else Raise UnicodeDecodeError
        | _ => Raise UnicodeDecodeError
        end
      else Raise UnicodeDecodeError
  end.

(** *** Async generators *)

Record AsyncGenerator (A : Type) : Type := Generator {
  yielded : list A;
  raised : option Exception
}.
Arguments Generator {A} yielded raised.
Arguments yielded {A} _.
Arguments raised {A} _.

Definition exhausted {A} : AsyncGenerator A := Generator [] None.
Definition raising {A} (e : Exception) : AsyncGenerator A := Generator [] (Some e).
Definition yield {A} (x : A) (rest : AsyncGenerator A) : AsyncGenerator A :=
  Generator (x :: yielded rest) (raised rest).

(** ** reactive_video_processor.py: the data classes *)

Module VideoFrame.
Record t : Type := mk {
  frame_id : Z;
  data : list byte;
  timestamp : timestamp;
  metadata : gmap string string
}.
End VideoFrame.

Module ProcessedFrame.
Record t : Type := mk {
  frame_id : Z;
  processed_data : list byte;
  processing_time : timestamp;
  original_timestamp : timestamp
}.
End ProcessedFrame.

(** [asyncio.gather]: the results come back in the position of their
    task, whatever the order of completion; when tasks raise, the exception
    of the one that completes first is raised to the caller.  [order] lists
    the positions of the tasks in their order of completion. *)
Fixpoint first_raised {A} (order : list nat) (outcomes : list (result A)) : option Exception :=
  match order with
  | [] => None
  | i :: order' =>
      match outcomes !! i with
      | Some (Raise e) => Some e
      | _ => first_raised order' outcomes
      end
  end.

Fixpoint in_position {A} (outcomes : list (result A)) : result (list A) :=
  match outcomes with
  | [] => Return []
  | r :: outcomes' =>
      a ← r;
      rest ← in_position outcomes';
      Return (a :: rest)
  end.

Definition gather {A} (order : list nat) (outcomes : list (result A)) : result (list A) :=
  match first_raised order outcomes with
  | Some e => Raise e
  | None => in_position outcomes
  end.

(** [asyncio.gather] with [return_exceptions=True]: exceptions are results. *)
Definition gather_return_exceptions {A} (outcomes : list (result A)) : result (list (result A)) :=
  Return outcomes.

(** [isinstance(r, Exception)] on an entry of such a result list. *)
Definition isinstance_Exception {A} (r : result A) : bool := negb (succeeds r).

(** ** reactive_video_processor.py: [ReactiveVideoStream] *)

(** The two standard-library constructors called by [__init__], with the
    argument checks they perform. *)
Definition Semaphore (value : Z) : result Z :=
  if (value <? 0)%Z then Raise (ValueError "Semaphore initial value must be >= 0")
  else Return value.

Definition ThreadPoolExecutor (max_workers : Z) : result Z :=
  if (max_workers <=? 0)%Z then Raise (ValueError "max_workers must be greater than 0")
  else Return max_workers.

(** [semaphore] holds the initial value of the semaphore and [executor] the
    number of worker threads of the pool. *)
Record ReactiveVideoStream : Type := {
  max_concurrent_tasks : Z;
  semaphore : Z;
  executor : Z
}.

Definition ReactiveVideoStream_init (max_concurrent_tasks : Z) : result ReactiveVideoStream :=
  semaphore ← Semaphore max_concurrent_tasks;
  executor ← ThreadPoolExecutor max_concurrent_tasks;
  Return {| max_concurrent_tasks := max_concurrent_tasks;
            semaphore := semaphore;
            executor := executor |}.

Definition _cpu_intensive_processing (data : list byte) : result (list byte) :=
  s ← decode data;
  encode (literal "processed_" ++ s).

(** The processing of [frame] does not raise. *)
Definition processable (frame : VideoFrame.t) : bool :=
  succeeds (_cpu_intensive_processing (VideoFrame.data frame)).

(** [lambda frame: frame.frame_id % 2 == 0], the predicate of the supervisor;
    it never raises. *)
Definition even_frame (frame : VideoFrame.t) : result bool :=
  Return (VideoFrame.frame_id frame mod 2 =? 0)%Z.

Record PipelineReport : Type := {
  total_time : timestamp;
  successful : Z;
  failed : Z;
  total_frames : Z
}.

Record VideoProcessingPipeline : Type := {
  stream_processor : ReactiveVideoStream;
  error_count : Z;
  processed_count : Z
}.

Definition VideoProcessingPipeline_init : result VideoProcessingPipeline :=
  stream_processor ← ReactiveVideoStream_init 20;
  Return {| stream_processor := stream_processor; error_count := 0; processed_count := 0 |}.

(** A pipeline as [VideoProcessingPipeline()] constructs it. *)
Definition blank_pipeline : VideoProcessingPipeline :=
  {| stream_processor := {| max_concurrent_tasks := 20; semaphore := 20; executor := 20 |};
     error_count := 0;
     processed_count := 0 |}.

(** [_save_processed_frames]: sleeps, then [pass]. *)
Definition _save_processed_frames (frames : list ProcessedFrame.t) (source : string) : result unit :=
  Return tt.

(** [f"frame_data_{frame_id}".encode()] *)
Definition frame_data (frame_id : Z) : result (list byte) :=
  encode (literal "frame_data_" ++ format_int frame_id).

(** The payload of frame [frame_id] of the frame source is produced and can
    be processed. *)
Definition sound_payload (frame_id : Z) : bool :=
  match frame_data frame_id with
  | Return data => succeeds (_cpu_intensive_processing data)
  | Raise _ => false
  end.

Definition ids_of_frames (frames : list VideoFrame.t) : list Z :=
  map VideoFrame.frame_id frames.

Definition ids_of_batch (processed : list ProcessedFrame.t) : list Z :=
  map ProcessedFrame.frame_id processed.

Fixpoint strictly_increasing (ids : list Z) : bool :=
  match ids with
  | a :: (b :: _) as rest => (a <? b)%Z && strictly_increasing rest
  | _ => true
  end.

Section Reactive.

(** [time.time()] as read when [video_source] produces frame [frame_id]. *)
Variable captured_at : string -> Z -> timestamp.
(** [time.time() - start_time] as measured around the processing of a frame. *)
Variable measured : VideoFrame.t -> timestamp.
(** The order in which the concurrently processed frames of a batch complete. *)
Variable completion_order : list VideoFrame.t -> list nat.

(** The body of [for frame_id in range(100)]. *)
Fixpoint create_video_stream_loop (video_source : string) (ids : list Z)
  : AsyncGenerator VideoFrame.t :=
  match ids with
  | [] => exhausted
  | frame_id :: ids' =>
      match frame_data frame_id with
      | Raise e => raising e
      | Return data =>
          yield (VideoFrame.mk frame_id data (captured_at video_source frame_id)
                   {[ "source" := video_source; "format" := "h264" ]})
                (create_video_stream_loop video_source ids')
      end
  end.

Definition create_video_stream (video_source : string) : AsyncGenerator VideoFrame.t :=
  create_video_stream_loop video_source (range 100).

(** The semaphore and the executor do not change what is computed, only
    when; they are the subject of the scheduler model further down.  The
    processor is taken as used within one event loop: carried into another
    loop, a call that has to wait for a permit is refused by the semaphore
    with a [RuntimeError], which is outside this model. *)
Definition process_frame_async (frame : VideoFrame.t) : result ProcessedFrame.t :=
  processed_data ← _cpu_intensive_processing (VideoFrame.data frame);
  Return (ProcessedFrame.mk (VideoFrame.frame_id frame) processed_data
            (measured frame) (VideoFrame.timestamp frame)).

(** A predicate is a Python callable: it gives a verdict or raises, and an
    exception it raises ends the generator at that frame. *)
Fixpoint filter_loop (predicate : VideoFrame.t -> result bool) (frames : list VideoFrame.t)
    (upstream : option Exception) : AsyncGenerator VideoFrame.t :=
  match frames with
  | [] => Generator [] upstream
  | frame :: frames' =>
      match predicate frame with
      | Raise e => raising e
      | Return true => yield frame (filter_loop predicate frames' upstream)
      | Return false => filter_loop predicate frames' upstream
      end
  end.

Definition filter_frames (stream : AsyncGenerator VideoFrame.t)
    (predicate : VideoFrame.t -> result bool) : AsyncGenerator VideoFrame.t :=
  filter_loop predicate (yielded stream) (raised stream).

(** [tasks = [...]; processed_batch = await asyncio.gather] *)
Definition process_batch (batch : list VideoFrame.t) : result (list ProcessedFrame.t) :=
  gather (completion_order batch) (map process_frame_async batch).

(** The loop of [batch_process], started with accumulator [batch].  Each
    emission is recorded together with the accumulator it was computed
    from, so that statements can name the frames admitted to a batch. *)
Fixpoint batch_loop (batch_size : Z) (batch frames : list VideoFrame.t)
    (upstream : option Exception)
  : AsyncGenerator (list VideoFrame.t * list ProcessedFrame.t) :=
  match frames with
  | [] =>
      match upstream with
      | Some e => raising e
      | None =>
          match batch with
          | [] => exhausted
          | _ :: _ =>
              match process_batch batch with
              | Return processed_batch => yield (batch, processed_batch) exhausted
              | Raise e => raising e
              end
          end
      end
  | frame :: frames' =>
      let batch := batch ++ [frame] in
      if (batch_size <=? len batch)%Z then
        match process_batch batch with
        | Return processed_batch =>
            yield (batch, processed_batch) (batch_loop batch_size [] frames' upstream)
        | Raise e => raising e
        end
      else batch_loop batch_size batch frames' upstream
  end.

Definition batch_process_trace (stream : AsyncGenerator VideoFrame.t) (batch_size : Z)
  : AsyncGenerator (list VideoFrame.t * list ProcessedFrame.t) :=
  batch_loop batch_size [] (yielded stream) (raised stream).

Definition batch_process (stream : AsyncGenerator VideoFrame.t) (batch_size : Z)
  : AsyncGenerator (list ProcessedFrame.t) :=
  let trace := batch_process_trace stream batch_size in
  Generator (map snd (yielded trace)) (raised trace).

(** *** [VideoProcessingPipeline]

    The supervisor reaches the frame source and the sink through [self];
    the repository's own are [create_video_stream] and
    [_save_processed_frames].  They are variables here, so that the
    failure paths of the supervisor and of the coordinator can be
    exercised with sources and sinks that raise. *)
Section Supervision.

Variable create_stream : string -> AsyncGenerator VideoFrame.t.
Variable save_frames : list ProcessedFrame.t -> string -> result unit.
(** The two [time.time()] readings of the coordinator. *)
Variable start_time end_time : timestamp.

Definition add_processed (n : Z) (self : VideoProcessingPipeline) : VideoProcessingPipeline :=
  {| stream_processor := stream_processor self;
     error_count := error_count self;
     processed_count := processed_count self + n |}.

Definition add_error (self : VideoProcessingPipeline) : VideoProcessingPipeline :=
  {| stream_processor := stream_processor self;
     error_count := error_count self + 1;
     processed_count := processed_count self |}.

(** [async for processed_batch in batch_stream: ...] *)
Fixpoint sink_loop (video_source : string) (batches : list (list ProcessedFrame.t))
    (upstream : option Exception) (self : VideoProcessingPipeline)
  : result unit * VideoProcessingPipeline :=
  match batches with
  | [] =>
      match upstream with
      | Some e => (Raise e, self)
      | None => (Return tt, self)
      end
  | processed_batch :: batches' =>
      let self := add_processed (len processed_batch) self in
      match save_frames processed_batch video_source with
      | Raise e => (Raise e, self)
      | Return _ => sink_loop video_source batches' upstream self
      end
  end.

Definition _process_single_source (video_source : string) (self : VideoProcessingPipeline)
  : result unit * VideoProcessingPipeline :=
  let video_stream := create_stream video_source in
  let filtered_stream := filter_frames video_stream even_frame in
  let batch_stream := batch_process filtered_stream 5 in
  match sink_loop video_source (yielded batch_stream) (raised batch_stream) self with
  | (Return _, self) => (Return tt, self)
  | (Raise e, self) => (Raise e, add_error self)
  end.

(** The tasks of the coordinator, one per source.  They run concurrently
    in the source; the only state they share is the pair of counters,
    which each task updates by additions between two suspension
    points, and the permits of the executor, which every holder gives
    back.  Their combined effect is therefore that of running them one
    after the other, which is what this function does. *)
Fixpoint run_tasks (video_sources : list string) (self : VideoProcessingPipeline)
  : list (result unit) * VideoProcessingPipeline :=
  match video_sources with
  | [] => ([], self)
  | source :: video_sources' =>
      let '(outcome, self) := _process_single_source source self in
      let '(outcomes, self) := run_tasks video_sources' self in
      (outcome :: outcomes, self)
  end.

Definition create_processing_pipeline (video_sources : list string)
    (self : VideoProcessingPipeline) : result PipelineReport * VideoProcessingPipeline :=
  let '(outcomes, self) := run_tasks video_sources self in
  match gather_return_exceptions outcomes with
  | Raise e => (Raise e, self)
  | Return results =>
      let total_time := (end_time - start_time)%Z in
      let successful_results := List.filter (fun r => negb (isinstance_Exception r)) results in
      let failed_results := List.filter isinstance_Exception results in
      (Return {| total_time := total_time;
                 successful := len successful_results;
                 failed := len failed_results;
                 total_frames := processed_count self |}, self)
  end.

End Supervision.

End Reactive.

(** ** The scheduler's view of [process_frame_async]

    Every call of [process_frame_async], from whichever source, goes through
    the same four phases: it waits at [async with self.semaphore]; it holds a
    permit while its job is queued in the thread pool; the job runs in a
    worker thread; it leaves the [async with] block, by [return] or by an
    exception, which gives the permit back. *)

Inductive phase : Type := Waiting | Queued | Executing | Finished.

Record task : Type := {
  task_source : string;
  task_frame : Z;
  task_phase : phase
}.

(** [value] is the counter of [self.semaphore], [workers] the number of
    threads of [self.executor]; both are shared by all sources. *)
Record pool : Type := {
  value : Z;
  workers : Z;
  tasks : list task
}.

Definition pool_of (self : ReactiveVideoStream) : pool :=
  {| value := semaphore self; workers := executor self; tasks := [] |}.

Definition in_phase (p : phase) (t : task) : bool :=
  match p, task_phase t with
  | Waiting, Waiting | Queued, Queued | Executing, Executing | Finished, Finished => true
  | _, _ => false
  end.

Definition count_phase (p : phase) (s : pool) : Z := len (List.filter (in_phase p) (tasks s)).

Definition executing (s : pool) : Z := count_phase Executing s.
Definition holding (s : pool) : Z := (count_phase Queued s + count_phase Executing s)%Z.

Definition move (i : nat) (t : task) (p : phase) (s : pool) : list task :=
  <[i := {| task_source := task_source t; task_frame := task_frame t; task_phase := p |}]> (tasks s).

Inductive event : Type :=
| Spawn (video_source : string) (frame_id : Z)
| Acquire (i : nat)
| Start (i : nat)
| Release (i : nat).

(** One scheduling step; [None] when the event is not enabled. *)
Definition fire (ev : event) (s : pool) : option pool :=
  match ev with
  | Spawn video_source frame_id =>
      Some {| value := value s; workers := workers s;
              tasks := tasks s ++ [{| task_source := video_source; task_frame := frame_id;
                                      task_phase := Waiting |}] |}
  | Acquire i =>
      match tasks s !! i with
      | Some t =>
          if in_phase Waiting t && (0 <? value s)%Z then
            Some {| value := value s - 1; workers := workers s; tasks := move i t Queued s |}
          else None
      | None => None
      end
  | Start i =>
      match tasks s !! i with
      | Some t =>
          if in_phase Queued t && (executing s <? workers s)%Z then
            Some {| value := value s; workers := workers s; tasks := move i t Executing s |}
          else None
      | None => None
      end
  | Release i =>
      match tasks s !! i with
      | Some t =>
          if in_phase Executing t then
            Some {| value := value s + 1; workers := workers s; tasks := move i t Finished s |}
          else None
      | None => None
      end
  end.

Fixpoint run (evs : list event) (s : pool) : option pool :=
  match evs with
  | [] => Some s
  | ev :: evs' =>
      match fire ev s with
      | Some s' => run evs' s'
      | None => None
      end
  end.

(** ** streaming_api.py: the [VideoStreamer] registry

    Both methods run under [self.stream_lock], so each call is one atomic
    transition of the registry; [now] is the reading of [datetime.now()]. *)

Module StreamInfo.
Record t : Type := mk {
  source : option string;
  start_time : timestamp;
  status : string
}.
End StreamInfo.

Record VideoStreamer : Type := {
  active_streams : gmap string StreamInfo.t
}.

Definition VideoStreamer_init : VideoStreamer := {| active_streams := ∅ |}.

Definition start_stream (now : timestamp) (self : VideoStreamer) (stream_id : string)
    (source : option string) : bool * VideoStreamer :=
  match active_streams self !! stream_id with
  | None =>
      (true, {| active_streams :=
                  <[stream_id := StreamInfo.mk source now "active"]> (active_streams self) |})
  | Some _ => (false, self)
  end.

Definition stop_stream (self : VideoStreamer) (stream_id : string) : bool * VideoStreamer :=
  match active_streams self !! stream_id with
  | Some _ => (true, {| active_streams := delete stream_id (active_streams self) |})
  | None => (false, self)
  end.

(** ** reactive_video_processor.py: [apply_transformations]

    A transformation is a Python callable and may raise; the exception ends
    the generator at the frame it was applied to. *)

(** [for transform in transformations: transformed_frame = transform(transformed_frame)] *)
Fixpoint apply_each (transformations : list (VideoFrame.t -> result VideoFrame.t))
    (transformed_frame : VideoFrame.t) : result VideoFrame.t :=
  match transformations with
  | [] => Return transformed_frame
  | transform :: transformations' =>
      transformed_frame ← transform transformed_frame;
      apply_each transformations' transformed_frame
  end.

Fixpoint apply_transformations_loop (transformations : list (VideoFrame.t -> result VideoFrame.t))
    (frames : list VideoFrame.t) (upstream : option Exception) : AsyncGenerator VideoFrame.t :=
  match frames with
  | [] => Generator [] upstream
  | frame :: frames' =>
      match apply_each transformations frame with
      | Return transformed_frame =>
          yield transformed_frame (apply_transformations_loop transformations frames' upstream)
      | Raise e => raising e
      end
  end.

Definition apply_transformations (stream : AsyncGenerator VideoFrame.t)
    (transformations : list (VideoFrame.t -> result VideoFrame.t)) : AsyncGenerator VideoFrame.t :=
  apply_transformations_loop transformations (yielded stream) (raised stream).

(** ** reactive_video_processor.py: [TraditionalVideoProcessor] *)

Module SyncReport.
Record t : Type := mk {
  total_time : timestamp;
  total_frames : Z
}.
End SyncReport.

Section Traditional.

(** [time.time()] as read when frame [i] of [source] is generated. *)
Variable generated_at : string -> Z -> timestamp.
(** The two [time.time()] readings of [process_videos_sync]. *)
Variable sync_start_time sync_end_time : timestamp.

(** The body of [for i in range(count)], with the list built so far. *)
Fixpoint _generate_frames_loop (source : string) (ids : list Z) (frames : list VideoFrame.t)
  : result (list VideoFrame.t) :=
  match ids with
  | [] => Return frames
  | i :: ids' =>
      data ← frame_data i;
      _generate_frames_loop source ids'
        (frames ++ [VideoFrame.mk i data (generated_at source i) {[ "source" := source ]}])
  end.

Definition _generate_frames (source : string) (count : Z) : result (list VideoFrame.t) :=
  _generate_frames_loop source (range count) [].

(** [_process_frame_sync]: sleeps. *)
Definition _process_frame_sync (frame : VideoFrame.t) : unit := tt.

(** [for frame in frames: self._process_frame_sync(frame); total_frames += 1] *)
Fixpoint process_frames_sync (frames : list VideoFrame.t) (total_frames : Z) : Z :=
  match frames with
  | [] => total_frames
  | frame :: frames' =>
      let _ := _process_frame_sync frame in
      process_frames_sync frames' (total_frames + 1)%Z
  end.

(** [for source in video_sources: ...] *)
Fixpoint process_sources_sync (video_sources : list string) (total_frames : Z) : result Z :=
  match video_sources with
  | [] => Return total_frames
  | source :: video_sources' =>
      frames ← _generate_frames source 50;
      process_sources_sync video_sources' (process_frames_sync frames total_frames)
  end.

Definition process_videos_sync (video_sources : list string) : result SyncReport.t :=
  total_frames ← process_sources_sync video_sources 0;
  Return (SyncReport.mk (sync_end_time - sync_start_time)%Z total_frames).

End Traditional.

(** ** streaming_api.py: the event generator and the endpoints

    A response is its status code and its body.  [jsonify] of a flat dict is
    the list of its items, a JSON [null] being [None]. *)

(** A value of the JSON object a request carries.  Strings and [null] are
    kept as they are; of any other value (a number, a boolean, an array, an
    object) only its truth value in Python is kept. *)
Inductive json : Type :=
| JNull
| JString (s : string)
| JOther (truthy : bool).

(** [not value] *)
Definition falsy (value : json) : bool :=
  match value with
  | JNull => true
  | JString "" => true
  | JString _ => false
  | JOther truthy => negb truthy
  end.

Definition LF : string := String (Ascii.ascii_of_nat 10) EmptyString.

(** [generate_stream]: [observed] gives, for each evaluation of the loop
    test, the registry as that evaluation finds it (other requests change it
    in between) and the text of [datetime.now()] used if the test passes.
    The generator runs for as long as it is observed. *)
Fixpoint generate_stream (stream_id : string) (observed : list (VideoStreamer * string))
  : list string :=
  match observed with
  | [] => []
  | (self, now) :: later =>
      match active_streams self !! stream_id with
      | Some _ =>
          let frame_data := "Frame data for stream " +:+ stream_id +:+ " at " +:+ now in
          ("data: " +:+ frame_data +:+ LF +:+ LF) :: generate_stream stream_id later
      | None => []
      end
  end.

Module Response.
Inductive body : Type :=
| Json (items : list (string * option string))
| JsonStreams (streams : list (list (string * option string)))
| EventStream (events : list string) (mimetype : string) (headers : list (string * string)).
Record t : Type := mk {
  payload : body;
  status : Z
}.
End Response.

Module Api.
Section Endpoints.

(** [datetime.isoformat()] *)
Variable isoformat : timestamp -> string.

Definition stream_url (stream_id : string) : string := "/api/v1/stream/" +:+ stream_id.

(** [POST /api/v1/stream/start] with parsed body [data].  The registry of
    this development is keyed by strings and holds sources that are strings
    or [None].  The code also answers a request whose [stream_id] is a truthy
    value other than a string, or whose [source] is neither a string nor
    [null] (it uses the value as the key, or stores it as the source); that
    answer cannot be written with this registry and is left out: [None]. *)
Definition start_stream (now : timestamp) (data : gmap string json)
    (streamer : VideoStreamer) : option (Response.t * VideoStreamer) :=
  let stream_id := default JNull (data !! "stream_id") in
  let source := default (JString "default") (data !! "source") in
  if falsy stream_id then
    Some (Response.mk (Response.Json [("error", Some "stream_id is required")]) 400, streamer)
  else
    match stream_id, source with
    | JString stream_id, (JNull | JString _) =>
        let source := match source with JString source => Some source | _ => None end in
        let '(started, streamer) := start_stream now streamer stream_id source in
        if started then
          Some (Response.mk (Response.Json [("message", Some "Stream started successfully");
                                            ("stream_id", Some stream_id);
                                            ("stream_url", Some (stream_url stream_id))]) 200,
                streamer)
        else
          Some (Response.mk (Response.Json [("error", Some "Stream already exists")]) 409,
                streamer)
    | _, _ => None
    end.

(** [GET /api/v1/stream/<stream_id>] *)
Definition get_stream (streamer : VideoStreamer) (stream_id : string)
    (observed : list (VideoStreamer * string)) : Response.t :=
  match active_streams streamer !! stream_id with
  | None => Response.mk (Response.Json [("error", Some "Stream not found")]) 404
  | Some _ =>
      Response.mk
        (Response.EventStream (generate_stream stream_id observed) "text/event-stream"
           [("Cache-Control", "no-cache"); ("Connection", "keep-alive");
            ("Access-Control-Allow-Origin", "*")])
        200
  end.

(** [POST /api/v1/stream/<stream_id>/stop] *)
Definition stop_stream (streamer : VideoStreamer) (stream_id : string)
  : Response.t * VideoStreamer :=
  let '(stopped, streamer) := stop_stream streamer stream_id in
  if stopped then
    (Response.mk (Response.Json [("message", Some "Stream stopped successfully")]) 200, streamer)
  else
    (Response.mk (Response.Json [("error", Some "Stream not found")]) 404, streamer).

Definition stream_items (stream_id : string) (info : StreamInfo.t)
  : list (string * option string) :=
  [("stream_id", Some stream_id);
   ("source", StreamInfo.source info);
   ("start_time", Some (isoformat (StreamInfo.start_time info)));
   ("status", Some (StreamInfo.status info));
   ("stream_url", Some (stream_url stream_id))].

(** [GET /api/v1/streams].  Python lists the streams in the order of their
    insertion; the registry map keeps no such order, so the listing is
    modelled up to the order of its entries. *)
Definition list_streams (streamer : VideoStreamer) : Response.t :=
  Response.mk
    (Response.JsonStreams
       (map (fun entry => stream_items entry.1 entry.2) (map_to_list (active_streams streamer))))
    200.

(** [GET /api/v1/stream/<stream_id>/info] *)
Definition get_stream_info (streamer : VideoStreamer) (stream_id : string) : Response.t :=
  match active_streams streamer !! stream_id with
  | None => Response.mk (Response.Json [("error", Some "Stream not found")]) 404
  | Some info => Response.mk (Response.Json (stream_items stream_id info)) 200
  end.

End Endpoints.
End Api.

(** A history of calls on the registry. *)
Inductive registry_call : Type :=
| CallStart (now : timestamp) (stream_id : string) (source : option string)
| CallStop (stream_id : string).

Fixpoint replay (calls : list registry_call) (self : VideoStreamer) : VideoStreamer :=
  match calls with
  | [] => self
  | CallStart now stream_id source :: calls' =>
      replay calls' (start_stream now self stream_id source).2
  | CallStop stream_id :: calls' => replay calls' (stop_stream self stream_id).2
  end.

(** [p(frame) and q(frame)] as Python evaluates it: [q] is asked only when
    [p] says yes. *)
Definition and_then (p q : VideoFrame.t -> result bool) (frame : VideoFrame.t) : result bool :=
  match p frame with
  | Return true => q frame
  | Return false => Return false
  | Raise e => Raise e
  end.

(** An event of the scheduler that adds a call, as opposed to one that moves
    an existing call forward. *)
Definition is_spawn (ev : event) : bool :=
  match ev with Spawn _ _ => true | _ => false end.

(** The number of frames in a list of batches. *)
Definition frames_in (batches : list (list ProcessedFrame.t)) : Z :=
  foldr (fun processed_batch total => (len processed_batch + total)%Z) 0%Z batches.

(** ** Concrete environments, used to run the definitions *)

Definition wall_clock : string -> Z -> timestamp := fun _ frame_id => (1700000000 + 10 * frame_id)%Z.
Definition instantly : VideoFrame.t -> timestamp := fun _ => 0%Z.
Definition in_submission_order : list VideoFrame.t -> list nat := fun batch => seq 0 (length batch).
Definition last_first : list VideoFrame.t -> list nat := fun batch => rev (seq 0 (length batch)).

Definition full_disk : list ProcessedFrame.t -> string -> result unit :=
  fun _ _ => Raise (OSError "disk full").

(** A frame whose payload is not UTF-8. *)
Definition garbled (frame_id : Z) : VideoFrame.t := VideoFrame.mk frame_id [xff] 0%Z ∅.

Definition plain (frame_id : Z) : VideoFrame.t :=
  VideoFrame.mk frame_id (String.list_byte_of_string "abc") 0%Z ∅.

Definition stream_of (frames : list VideoFrame.t) : AsyncGenerator VideoFrame.t :=
  Generator frames None.

(** A predicate that keeps the even frames and raises at frame 4. *)
Definition even_until_four (frame : VideoFrame.t) : result bool :=
  if (VideoFrame.frame_id frame =? 4)%Z then Raise (ValueError "no verdict for frame 4")
  else even_frame frame.

(** A predicate that keeps the frames before frame 4 and never raises. *)
Definition below_four (frame : VideoFrame.t) : result bool :=
  Return (VideoFrame.frame_id frame <? 4)%Z.

(** A source whose only frame cannot be processed. *)
Definition garbled_source : string -> AsyncGenerator VideoFrame.t :=
  fun _ => stream_of [garbled 0].

(** The same frame as [plain], as a later traversal of the source stamps it. *)
Definition replayed (frame_id : Z) : VideoFrame.t :=
  VideoFrame.mk frame_id (String.list_byte_of_string "abc") 42%Z ∅.

(** What [process_frame_async] makes of [plain frame_id] when [instantly]
    measures the processing. *)
Definition processed (frame_id : Z) : ProcessedFrame.t :=
  ProcessedFrame.mk frame_id (String.list_byte_of_string "processed_abc") 0%Z 0%Z.

Definition two_workers : ReactiveVideoStream :=
  {| max_concurrent_tasks := 2; semaphore := 2; executor := 2 |}.

(** Three frames of two sources; the third one is kept waiting. *)
Definition busy_schedule : list event :=
  [Spawn "video_source_0" 0; Spawn "video_source_1" 0; Spawn "video_source_0" 2;
   Acquire 0; Acquire 1; Start 0; Start 1].

Definition one_stream : VideoStreamer :=
  {| active_streams := {[ "cam1" := StreamInfo.mk (Some "rtsp://cam1") 5%Z "active" ]} |}.

(** A sink that refuses the batch starting with frame 10, the second batch of
    the supervisor. *)
Definition refuses_second_batch : list ProcessedFrame.t -> string -> result unit :=
  fun frames _ =>
    match frames with
    | frame :: _ =>
        if (ProcessedFrame.frame_id frame =? 10)%Z then Raise (OSError "disk full")
        else Return tt
    | [] => Return tt
    end.



Definition some_calls : list registry_call :=
  [CallStart 1%Z "cam1" None; CallStart 2%Z "cam2" (Some "rtsp://cam2"); CallStop "cam1";
   CallStart 3%Z "cam2" None].

(** ** Properties of the codec and of [gather] *)

Lemma bind_Return {A B} (r : result A) (k : A -> result B) (b : B) :
  r ≫= k = Return b -> exists a, r = Return a /\ k a = Return b.
Proof. destruct r as [a|e]; simpl; [eauto | discriminate]. Qed.

Lemma succeeds_Return {A} (r : result A) : succeeds r = true -> exists a, r = Return a.
Proof. destruct r; simpl; [eauto | discriminate]. Qed.

Lemma first_raised_none {A} (order : list nat) (outcomes : list (result A)) :
  Forall (fun r => succeeds r = true) outcomes -> first_raised order outcomes = None.
Proof.
  intros Hall. induction order as [|i order IH]; simpl; [reflexivity|].
  destruct (outcomes !! i) as [[a|e]|] eqn:Hi; try exact IH.
  apply list_elem_of_lookup_2 in Hi.
  rewrite Forall_forall in Hall. apply Hall in Hi. discriminate.
Qed.

Lemma gather_Return {A} (order : list nat) (outcomes : list (result A)) (values : list A) :
  gather order outcomes = Return values -> in_position outcomes = Return values.
Proof. unfold gather. destruct (first_raised order outcomes); [discriminate | tauto]. Qed.

Lemma in_position_length {A} (outcomes : list (result A)) (values : list A) :
  in_position outcomes = Return values -> length values = length outcomes.
Proof.
  revert values. induction outcomes as [|r outcomes IH]; simpl; intros values H.
  - injection H as <-. reflexivity.
  - apply bind_Return in H as (a & _ & H).
    apply bind_Return in H as (rest & Hrest & H).
    injection H as <-. simpl. f_equal. auto.
Qed.

Lemma in_position_total {A} (outcomes : list (result A)) :
  Forall (fun r => succeeds r = true) outcomes -> exists values, in_position outcomes = Return values.
Proof.
  induction 1 as [|r outcomes Hr _ [values IH]]; simpl; [eauto|].
  apply succeeds_Return in Hr as [a ->]. rewrite IH. simpl. eauto.
Qed.

Lemma strictly_increasing_app (l1 l2 : list Z) :
  strictly_increasing (l1 ++ l2) = true ->
  strictly_increasing l1 = true /\ strictly_increasing l2 = true.
Proof.
  induction l1 as [|a l1 IH]; simpl; [tauto|].
  destruct l1 as [|b l1]; simpl in *.
  - destruct l2; [tauto|]. intros [_ H]%andb_prop. tauto.
  - intros [Hab H]%andb_prop. apply IH in H as [H1 H2].
    rewrite Hab, H1. tauto.
Qed.

(** ** Properties of the batch operator *)

Section BatchFacts.

Context (measured : VideoFrame.t -> timestamp).
Context (completion_order : list VideoFrame.t -> list nat).

#[local] Abbreviation process_frame_async := (process_frame_async measured).
#[local] Abbreviation process_batch := (process_batch measured completion_order).
#[local] Abbreviation batch_loop := (batch_loop measured completion_order).
#[local] Abbreviation batch_process_trace := (batch_process_trace measured completion_order).
#[local] Abbreviation batch_process := (batch_process measured completion_order).

Lemma process_frame_async_succeeds frame :
  succeeds (process_frame_async frame) = processable frame.
Proof.
  unfold process_frame_async, processable.
  destruct (_cpu_intensive_processing (VideoFrame.data frame)); reflexivity.
Qed.

Lemma in_position_ids batch processed_batch :
  in_position (map process_frame_async batch) = Return processed_batch ->
  ids_of_batch processed_batch = ids_of_frames batch.
Proof.
  revert processed_batch. induction batch as [|frame batch IH]; simpl; intros pb H.
  - injection H as <-. reflexivity.
  - apply bind_Return in H as (p & Hp & H).
    apply bind_Return in H as (rest & Hrest & H).
    injection H as <-. simpl. f_equal; [|auto].
    unfold process_frame_async in Hp.
    apply bind_Return in Hp as (d & _ & Hp). injection Hp as <-. reflexivity.
Qed.

Lemma process_batch_ids batch processed_batch :
  process_batch batch = Return processed_batch ->
  ids_of_batch processed_batch = ids_of_frames batch
  /\ length processed_batch = length batch.
Proof.
  intros H%gather_Return. split; [by apply in_position_ids|].
  apply in_position_length in H. by rewrite length_map in H.
Qed.

Lemma process_batch_total batch :
  Forall (fun frame => processable frame = true) batch ->
  exists processed_batch, process_batch batch = Return processed_batch.
Proof.
  intros Hall.
  assert (Forall (fun r => succeeds r = true) (map process_frame_async batch)) as Hok.
  { rewrite Forall_map. eapply Forall_impl; [exact Hall|].
    intros frame Hf. simpl. by rewrite process_frame_async_succeeds. }
  unfold process_batch, gather. rewrite first_raised_none by exact Hok.
  by apply in_position_total.
Qed.

(** What the loop emits, read off its trace: every emitted batch carries
    the ids of the accumulator it was computed from, and the accumulators
    emitted one after the other are a prefix of the frames consumed. *)
Lemma batch_loop_trace batch_size frames batch upstream :
  Forall (fun entry => ids_of_batch entry.2 = ids_of_frames entry.1)
    (yielded (batch_loop batch_size batch frames upstream))
  /\ exists unflushed,
       batch ++ frames
       = concat (map fst (yielded (batch_loop batch_size batch frames upstream))) ++ unflushed.
Proof.
  revert batch. induction frames as [|frame frames IH]; intros batch; simpl.
  - destruct upstream as [e|]; simpl; [split; [constructor | eauto]|].
    destruct batch as [|f batch]; simpl; [split; [constructor | by exists []]|].
    destruct (process_batch (f :: batch)) as [pb|e] eqn:Hpb; simpl.
    + split; [constructor; [by apply process_batch_ids | constructor]|].
      exists []. by rewrite !app_nil_r.
    + split; [constructor | eauto].
  - destruct (batch_size <=? len (batch ++ [frame]))%Z.
    + destruct (process_batch (batch ++ [frame])) as [pb|e] eqn:Hpb; simpl.
      * destruct (IH []) as [Hids [unflushed Hcat]]. split.
        -- constructor; [by apply process_batch_ids | exact Hids].
        -- exists unflushed. simpl in Hcat. rewrite <- app_assoc, <- Hcat.
           by rewrite <- app_assoc.
      * split; [constructor | eauto].
    + destruct (IH (batch ++ [frame])) as [Hids [unflushed Hcat]].
      split; [exact Hids|]. exists unflushed. rewrite <- Hcat. by rewrite <- app_assoc.
Qed.

(** C1.  Every batch emitted by [batch_process] carries, position by
    position, the frame ids of the frames admitted to it, whatever the order
    in which their concurrent processing completed; the admitted frames are
    consecutive frames of the input, so that over an input with strictly
    increasing ids the ids of the batch are strictly increasing. *)
Theorem batch_ids_follow_admission stream batch_size i processed_batch :
  yielded (batch_process stream batch_size) !! i = Some processed_batch ->
  exists admitted before after,
    yielded (batch_process_trace stream batch_size) !! i = Some (admitted, processed_batch)
    /\ yielded stream = before ++ admitted ++ after
    /\ ids_of_batch processed_batch = ids_of_frames admitted
    /\ (strictly_increasing (ids_of_frames (yielded stream)) = true ->
        strictly_increasing (ids_of_batch processed_batch) = true).
Proof.
  intros Hi. unfold batch_process in Hi. simpl in Hi.
  apply list_lookup_fmap_Some_1 in Hi as ([admitted pb] & Hpb & Hi). simpl in Hpb. subst pb.
  destruct (batch_loop_trace batch_size (yielded stream) [] (raised stream))
    as [Hids [unflushed Hcat]].
  fold (batch_process_trace stream batch_size) in Hids, Hcat.
  rewrite Forall_lookup in Hids. specialize (Hids _ _ Hi). simpl in Hids.
  pose proof (take_drop_middle _ _ _ Hi) as Hsplit.
  rewrite <- Hsplit in Hcat. rewrite map_app, concat_app in Hcat. simpl in Hcat.
  rewrite <- !app_assoc in Hcat.
  eexists admitted, _, _. split; [exact Hi|]. split; [exact Hcat|]. split; [exact Hids|].
  intros Hinc. rewrite Hids. rewrite Hcat in Hinc. unfold ids_of_frames in *.
  rewrite !map_app in Hinc.
  apply strictly_increasing_app in Hinc as [_ Hinc].
  by apply strictly_increasing_app in Hinc as [Hinc _].
Qed.

(** The sizes of the emitted batches when every frame can be processed: as
    many full batches as fit, then the remainder if there is one. *)
Lemma batch_loop_sizes (b : nat) frames batch :
  (0 < b)%nat ->
  (length batch < b)%nat ->
  Forall (fun frame => processable frame = true) (batch ++ frames) ->
  raised (batch_loop (Z.of_nat b) batch frames None) = None
  /\ map (fun entry => length entry.2) (yielded (batch_loop (Z.of_nat b) batch frames None))
     = replicate ((length batch + length frames) / b) b
       ++ (if ((length batch + length frames) mod b =? 0)%nat then []
           else [((length batch + length frames) mod b)%nat]).
Proof.
  intros Hb. revert batch. induction frames as [|frame frames IH]; intros batch Hlt Hall.
  - rewrite app_nil_r in Hall. rewrite Nat.add_0_r. simpl.
    destruct batch as [|f batch].
    + simpl. rewrite Nat.Div0.div_0_l, Nat.Div0.mod_0_l. by split.
    + destruct (process_batch_total _ Hall) as [pb Hpb]. rewrite Hpb. simpl.
      apply process_batch_ids in Hpb as [_ Hlen]. rewrite Hlen.
      rewrite Nat.div_small, Nat.mod_small by exact Hlt.
      simpl in *. by split.
  - simpl. unfold len. rewrite length_app. simpl.
    assert (Forall (fun frame => processable frame = true) ((batch ++ [frame]) ++ frames)) as Hall'.
    { by rewrite <- app_assoc. }
    destruct (Z.leb_spec (Z.of_nat b) (Z.of_nat (length batch + 1))) as [Hfull|Hroom].
    + assert (length batch + 1 = b)%nat as Hb' by lia.
      apply Forall_app in Hall' as [Hbatch Hrest].
      destruct (process_batch_total _ Hbatch) as [pb Hpb]. rewrite Hpb. simpl.
      apply process_batch_ids in Hpb as [_ Hlen]. rewrite Hlen, length_app. simpl.
      destruct (IH [] Hb Hrest) as [Hraised Hsizes]. simpl in Hsizes.
      split; [exact Hraised|]. rewrite Hsizes, Hb'.
      replace (length batch + S (length frames))%nat with (1 * b + length frames)%nat by lia.
      rewrite Nat.div_add_l by lia.
      replace (1 * b + length frames)%nat with (length frames + 1 * b)%nat by lia.
      rewrite Nat.Div0.mod_add. reflexivity.
    + assert (length (batch ++ [frame]) < b)%nat as Hlt'.
      { rewrite length_app. simpl. lia. }
      destruct (IH _ Hlt' Hall') as [Hraised Hsizes].
      split; [exact Hraised|]. rewrite Hsizes, length_app. simpl.
      by replace (length batch + 1 + length frames)%nat
        with (length batch + S (length frames))%nat by lia.
Qed.

(** With a batch size that is not positive the threshold is met after every
    append: every frame is emitted as a batch of its own. *)
Lemma batch_loop_singletons batch_size frames :
  (batch_size <= 0)%Z ->
  Forall (fun frame => processable frame = true) frames ->
  raised (batch_loop batch_size [] frames None) = None
  /\ Forall2 (fun entry frame => entry.1 = [frame] /\ length entry.2 = 1%nat)
       (yielded (batch_loop batch_size [] frames None)) frames.
Proof.
  intros Hsize. induction 1 as [|frame frames Hframe Hall [Hraised IH]]; simpl.
  - split; [reflexivity | constructor].
  - destruct (Z.leb_spec batch_size (len [frame])) as [_|Hlt]; [|unfold len in Hlt; simpl in Hlt; lia].
    destruct (process_batch_total [frame]) as [pb Hpb]; [by constructor|].
    rewrite Hpb. simpl. split; [exact Hraised|].
    constructor; [|exact IH]. apply process_batch_ids in Hpb as [_ Hlen]. by split.
Qed.

Lemma batch_loop_singleton_entries batch_size frames upstream :
  (batch_size <= 0)%Z ->
  Forall (fun entry => length entry.2 = 1%nat)
    (yielded (batch_loop batch_size [] frames upstream)).
Proof.
  intros Hsize. induction frames as [|frame frames IH]; simpl.
  - destruct upstream; constructor.
  - destruct (Z.leb_spec batch_size (len [frame])) as [_|Hlt]; [|unfold len in Hlt; simpl in Hlt; lia].
    destruct (process_batch [frame]) as [pb|e] eqn:Hpb; simpl; [|constructor].
    constructor; [|exact IH]. by apply process_batch_ids in Hpb as [_ Hlen].
Qed.

(** C3.  Over a stream of [N] frames that ends normally and whose frames can
    all be processed, and for a batch size [B > 0], [batch_process] emits
    [ceil(N / B)] batches and ends normally; every batch but the last has
    [B] elements and the last has [N mod B] elements, or [B] when [B]
    divides [N]; an empty stream gives no batch. *)
Theorem batch_count_and_sizes stream batch_size :
  (0 < batch_size)%Z ->
  raised stream = None ->
  Forall (fun frame => processable frame = true) (yielded stream) ->
  raised (batch_process stream batch_size) = None
  /\ len (yielded (batch_process stream batch_size))
     = ((len (yielded stream) + batch_size - 1) / batch_size)%Z
  /\ (yielded stream = [] -> yielded (batch_process stream batch_size) = [])
  /\ forall i processed_batch,
       yielded (batch_process stream batch_size) !! i = Some processed_batch ->
       len processed_batch
       = if decide (S i < length (yielded (batch_process stream batch_size)))%nat
         then batch_size
         else if (len (yielded stream) mod batch_size =? 0)%Z then batch_size
              else (len (yielded stream) mod batch_size)%Z.
Proof.
  intros Hpos Hup Hall.
  assert (exists b, batch_size = Z.of_nat b /\ (0 < b)%nat) as (b & -> & Hb).
  { exists (Z.to_nat batch_size). lia. }
  destruct (batch_loop_sizes b (yielded stream) [] Hb) as [Hraised Hsizes];
    [simpl; lia | exact Hall |].
  simpl in Hsizes. unfold batch_process, batch_process_trace. simpl. rewrite Hup.
  set (trace := yielded (batch_loop (Z.of_nat b) [] (yielded stream) None)) in *.
  set (n := length (yielded stream)) in *.
  pose proof (Nat.div_mod_eq n b) as Hdiv.
  pose proof (Nat.mod_upper_bound n b ltac:(lia)) as Hmod.
  assert (map length (map snd trace)
          = replicate (n / b) b ++ (if (n mod b =? 0)%nat then [] else [(n mod b)%nat])) as Hlens.
  { rewrite map_map. exact Hsizes. }
  assert (length (map snd trace) = (n / b + if (n mod b =? 0)%nat then 0 else 1)%nat) as Hcount.
  { apply (f_equal length) in Hlens.
    rewrite length_map, length_app, length_replicate in Hlens. rewrite Hlens.
    by destruct (n mod b =? 0)%nat. }
  unfold len. fold n. rewrite <- Nat2Z.inj_mod.
  split; [exact Hraised|]. split; [|split].
  - rewrite Hcount. destruct (Nat.eqb_spec (n mod b) 0) as [Hr|Hr].
    + apply Z.div_unique with (r := (Z.of_nat b - 1)%Z); lia.
    + apply Z.div_unique with (r := (Z.of_nat (n mod b) - 1)%Z); lia.
  - intros Hnil. subst trace. by rewrite Hnil.
  - intros i pb Hi. rewrite Hcount.
    assert (map length (map snd trace) !! i = Some (length pb)) as Hlen.
    { by rewrite list_lookup_fmap, Hi. }
    rewrite Hlens in Hlen. apply lookup_app_Some in Hlen as [Hlen | [Hge Hlen]].
    + apply lookup_replicate in Hlen as [-> Hlt].
      destruct (decide _) as [_|Hlast]; [reflexivity|].
      destruct (Nat.eqb_spec (n mod b) 0) as [Hr|Hr]; [|lia].
      rewrite Hr. reflexivity.
    + rewrite length_replicate in Hge, Hlen.
      destruct (Nat.eqb_spec (n mod b) 0) as [Hr|Hr]; [discriminate|].
      destruct (i - n / b)%nat eqn:Hq; [|discriminate]. injection Hlen as <-.
      destruct (decide _) as [Hnot|_]; [lia|].
      destruct (Z.eqb_spec (Z.of_nat (n mod b)) 0); [lia | reflexivity].
Qed.

(** C10.  For a batch size [<= 0], [batch_process] has no error of its own
    to raise and every batch it emits holds exactly one processed frame.
    Over a stream that ends normally and whose frames can all be processed it
    raises nothing and emits one batch per input frame, in order, each
    holding the processed frame of that input frame. *)
Theorem nonpositive_batch_size_singletons stream batch_size :
  (batch_size <= 0)%Z ->
  Forall (fun processed_batch => length processed_batch = 1%nat)
    (yielded (batch_process stream batch_size))
  /\ (raised stream = None ->
      Forall (fun frame => processable frame = true) (yielded stream) ->
      raised (batch_process stream batch_size) = None
      /\ length (yielded (batch_process stream batch_size)) = length (yielded stream)
      /\ Forall2 (fun processed_batch frame =>
                    ids_of_batch processed_batch = [VideoFrame.frame_id frame])
           (yielded (batch_process stream batch_size)) (yielded stream)).
Proof.
  intros Hsize. split.
  { pose proof (batch_loop_singleton_entries batch_size (yielded stream) (raised stream) Hsize)
      as Hone.
    unfold batch_process, batch_process_trace. simpl. rewrite Forall_map. exact Hone. }
  intros Hup Hall.
  destruct (batch_loop_singletons batch_size (yielded stream) Hsize Hall) as [Hraised Hone].
  destruct (batch_loop_trace batch_size (yielded stream) [] None) as [Hids _].
  unfold batch_process, batch_process_trace. simpl. rewrite Hup.
  split; [exact Hraised|].
  remember (yielded (batch_loop batch_size [] (yielded stream) None)) as trace eqn:Htrace.
  clear Htrace Hraised Hall.
  assert (Forall2 (fun processed_batch frame =>
                     ids_of_batch processed_batch = [VideoFrame.frame_id frame])
            (map snd trace) (yielded stream)) as Hgoal.
  { induction Hone as [|entry frame trace frames [Hadm Hlen] _ IH]; simpl; constructor.
    - apply Forall_cons in Hids as [Hid _]. by rewrite Hid, Hadm.
    - apply IH. by apply Forall_cons in Hids as [_ Hids]. }
  split; [by apply Forall2_length in Hgoal | exact Hgoal].
Qed.

End BatchFacts.

(** ** Properties of the frame source and of the filter *)

Section SourceFacts.

Context (captured_at : string -> Z -> timestamp).

#[local] Abbreviation create_video_stream_loop := (create_video_stream_loop captured_at).
#[local] Abbreviation create_video_stream := (create_video_stream captured_at).

Lemma create_video_stream_loop_spec video_source ids :
  forallb sound_payload ids = true ->
  ids_of_frames (yielded (create_video_stream_loop video_source ids)) = ids
  /\ raised (create_video_stream_loop video_source ids) = None
  /\ Forall (fun frame => processable frame = true)
       (yielded (create_video_stream_loop video_source ids)).
Proof.
  induction ids as [|frame_id ids IH]; simpl.
  - intros _. repeat split. constructor.
  - intros [Hhead Htail]%andb_prop. destruct (IH Htail) as (Hids & Hraised & Hall).
    unfold sound_payload in Hhead.
    destruct (frame_data frame_id) as [data|e]; [|discriminate]. simpl.
    split; [by rewrite Hids|]. split; [exact Hraised|]. by constructor.
Qed.

Lemma sound_payload_range : forallb sound_payload (range 100) = true.
Proof. vm_compute. reflexivity. Qed.

(** C7, as the code has it.  Whatever the source identifier, the frame
    source yields exactly 100 frames and then ends normally; their ids are
    0, 1, ..., 99 in production order.  The count is the constant of the
    loop: the function takes no element count. *)
Theorem create_video_stream_hundred_frames video_source :
  ids_of_frames (yielded (create_video_stream video_source)) = range 100
  /\ len (yielded (create_video_stream video_source)) = 100%Z
  /\ raised (create_video_stream video_source) = None
  /\ forall i frame,
       yielded (create_video_stream video_source) !! i = Some frame ->
       VideoFrame.frame_id frame = Z.of_nat i.
Proof.
  destruct (create_video_stream_loop_spec video_source (range 100) sound_payload_range)
    as (Hids & Hraised & _).
  fold (create_video_stream video_source) in Hids, Hraised.
  split; [exact Hids|]. split; [|split; [exact Hraised|]].
  - unfold len. apply (f_equal length) in Hids. unfold ids_of_frames in Hids.
    rewrite length_map in Hids. rewrite Hids. reflexivity.
  - intros i frame Hi.
    assert (ids_of_frames (yielded (create_video_stream video_source)) !! i
            = Some (VideoFrame.frame_id frame)) as Hid.
    { unfold ids_of_frames. by rewrite list_lookup_fmap, Hi. }
    rewrite Hids in Hid. unfold range in Hid.
    apply list_lookup_fmap_Some_1 in Hid as (k & -> & Hk).
    apply lookup_seq in Hk as [-> _]. reflexivity.
Qed.

Lemma create_video_stream_processable video_source :
  Forall (fun frame => processable frame = true) (yielded (create_video_stream video_source)).
Proof. apply (create_video_stream_loop_spec video_source (range 100) sound_payload_range). Qed.

End SourceFacts.

Lemma filter_loop_agree predicate upstream1 upstream2 frames1 frames2 :
  Forall2 (fun f1 f2 => VideoFrame.frame_id f1 = VideoFrame.frame_id f2
                        /\ predicate f1 = predicate f2) frames1 frames2 ->
  ids_of_frames (yielded (filter_loop predicate frames1 upstream1))
  = ids_of_frames (yielded (filter_loop predicate frames2 upstream2))
  /\ (upstream1 = upstream2 ->
      raised (filter_loop predicate frames1 upstream1)
      = raised (filter_loop predicate frames2 upstream2)).
Proof.
  induction 1 as [|f1 f2 frames1 frames2 [Hid Hverdict] _ [IHids IHraised]]; simpl;
    [by split|].
  rewrite <- Hverdict. destruct (predicate f1) as [[]|e]; simpl.
  - by rewrite Hid, IHids.
  - by split.
  - by split.
Qed.

Lemma filter_loop_kept predicate upstream frames :
  Forall (fun frame => predicate frame = Return true)
    (yielded (filter_loop predicate frames upstream)).
Proof.
  induction frames as [|frame frames IH]; simpl; [constructor|].
  destruct (predicate frame) as [[]|e] eqn:Hkeep; simpl;
    [by constructor | exact IH | constructor].
Qed.

Lemma filter_loop_all_kept predicate upstream frames :
  Forall (fun frame => predicate frame = Return true) frames ->
  yielded (filter_loop predicate frames upstream) = frames.
Proof.
  induction 1 as [|frame frames Hkeep _ IH]; simpl; [reflexivity|].
  rewrite Hkeep. simpl. by rewrite IH.
Qed.

Lemma filter_loop_Forall (P : VideoFrame.t -> Prop) predicate upstream frames :
  Forall P frames -> Forall P (yielded (filter_loop predicate frames upstream)).
Proof.
  induction 1 as [|frame frames HP _ IH]; simpl; [constructor|].
  destruct (predicate frame) as [[]|e]; simpl; [by constructor | exact IH | constructor].
Qed.

Lemma filter_loop_even upstream frames :
  raised (filter_loop even_frame frames upstream) = upstream
  /\ ids_of_frames (yielded (filter_loop even_frame frames upstream))
     = List.filter (fun frame_id => (frame_id mod 2 =? 0)%Z) (ids_of_frames frames).
Proof.
  induction frames as [|frame frames [IHraised IHids]]; simpl; [by split|].
  destruct (VideoFrame.frame_id frame mod 2 =? 0)%Z; simpl; [|by split].
  split; [exact IHraised | by rewrite IHids].
Qed.

(** The stream the supervisor hands to [batch_process] meets what the
    statements about batches ask of their input: it ends normally, its
    frames can be processed, and its ids are 0, 2, ..., 98. *)
Lemma wired_stream_well_formed captured_at video_source :
  raised (filter_frames (create_video_stream captured_at video_source) even_frame) = None
  /\ Forall (fun frame => processable frame = true)
       (yielded (filter_frames (create_video_stream captured_at video_source) even_frame))
  /\ ids_of_frames
       (yielded (filter_frames (create_video_stream captured_at video_source) even_frame))
     = map (Z.mul 2) (range 50)
  /\ strictly_increasing
       (ids_of_frames
          (yielded (filter_frames (create_video_stream captured_at video_source) even_frame)))
     = true.
Proof.
  destruct (create_video_stream_loop_spec captured_at video_source (range 100)
              sound_payload_range) as (Hids & Hraised & Hall).
  fold (create_video_stream captured_at video_source) in Hids, Hraised, Hall.
  unfold filter_frames.
  destruct (filter_loop_even (raised (create_video_stream captured_at video_source))
              (yielded (create_video_stream captured_at video_source))) as [-> ->].
  rewrite Hids.
  split; [exact Hraised|]. split; [by apply filter_loop_Forall|]. split; reflexivity.
Qed.

(** C8.  Two passes of [filter_frames] with the same predicate, whatever it
    answers or raises, over two traversals of a source that agree frame by
    frame (same ids, same outcome of the predicate; in particular over the
    same frames) emit the same sequence of frame ids, and end in the same way
    when the traversals do; and filtering the filtered stream once more
    leaves the sequence of ids as it is. *)
Theorem filter_frames_repeatable predicate first_traversal second_traversal :
  Forall2 (fun f1 f2 => VideoFrame.frame_id f1 = VideoFrame.frame_id f2
                        /\ predicate f1 = predicate f2)
    (yielded first_traversal) (yielded second_traversal) ->
  ids_of_frames (yielded (filter_frames first_traversal predicate))
  = ids_of_frames (yielded (filter_frames second_traversal predicate))
  /\ (raised first_traversal = raised second_traversal ->
      raised (filter_frames first_traversal predicate)
      = raised (filter_frames second_traversal predicate))
  /\ ids_of_frames (yielded (filter_frames (filter_frames first_traversal predicate) predicate))
     = ids_of_frames (yielded (filter_frames first_traversal predicate)).
Proof.
  intros Hagree.
  destruct (filter_loop_agree predicate (raised first_traversal) (raised second_traversal)
              _ _ Hagree) as [Hids Hraised].
  split; [exact Hids|]. split; [exact Hraised|].
  unfold filter_frames at 1. f_equal. apply filter_loop_all_kept, filter_loop_kept.
Qed.

(** ** The bound on concurrently executing transformations *)

Lemma count_after_replace (f : task -> bool) (l : list task) (i : nat) (t t' : task) :
  l !! i = Some t ->
  len (List.filter f (<[i := t']> l))
  = (len (List.filter f l) - Z.b2z (f t) + Z.b2z (f t'))%Z.
Proof.
  unfold len. revert i. induction l as [|x l IH]; intros [|i] Hi; simplify_eq/=.
  - destruct (f t), (f t'); simpl; lia.
  - specialize (IH i Hi). destruct (f x); simpl; lia.
Qed.

Lemma count_phase_spawn (p : phase) (l : list task) (t : task) :
  len (List.filter (in_phase p) (l ++ [t]))
  = (len (List.filter (in_phase p) l) + Z.b2z (in_phase p t))%Z.
Proof.
  unfold len. rewrite List.filter_app, length_app. simpl.
  destruct (in_phase p t); simpl; lia.
Qed.

(** The invariant of the scheduler: the permits handed out and the permits
    left add up to the initial value of the semaphore, and no more jobs run
    than the pool has threads. *)
Lemma fire_invariant (K : Z) (ev : event) (s s' : pool) :
  fire ev s = Some s' ->
  (0 <= value s /\ value s + holding s = K /\ executing s <= workers s)%Z ->
  (0 <= value s' /\ value s' + holding s' = K /\ executing s' <= workers s')%Z
  /\ workers s' = workers s.
Proof.
  intros Hfire Hinv. unfold holding, executing, count_phase, move in *.
  destruct ev as [video_source frame_id|i|i|i]; unfold fire in Hfire.
  - injection Hfire as <-. simpl. rewrite !count_phase_spawn. simpl. lia.
  - destruct (tasks s !! i) as [t|] eqn:Hi; [|discriminate].
    destruct (in_phase Waiting t) eqn:Hphase; simpl in Hfire; [|discriminate].
    destruct (Z.ltb_spec 0 (value s)); [|discriminate].
    injection Hfire as <-. simpl. unfold move.
    rewrite !(count_after_replace _ _ _ _ _ Hi).
    destruct t as [src fid []]; simpl in *; try discriminate. lia.
  - destruct (tasks s !! i) as [t|] eqn:Hi; [|discriminate].
    destruct (in_phase Queued t) eqn:Hphase; simpl in Hfire; [|discriminate].
    unfold executing, count_phase in Hfire.
    destruct (Z.ltb_spec (len (List.filter (in_phase Executing) (tasks s))) (workers s));
      [|discriminate].
    injection Hfire as <-. simpl. unfold move.
    rewrite !(count_after_replace _ _ _ _ _ Hi).
    destruct t as [src fid []]; simpl in *; try discriminate. lia.
  - destruct (tasks s !! i) as [t|] eqn:Hi; [|discriminate].
    destruct (in_phase Executing t) eqn:Hphase; simpl in Hfire; [|discriminate].
    injection Hfire as <-. simpl. unfold move.
    rewrite !(count_after_replace _ _ _ _ _ Hi).
    destruct t as [src fid []]; simpl in *; try discriminate. lia.
Qed.

Lemma run_invariant (K : Z) (evs : list event) (s s' : pool) :
  run evs s = Some s' ->
  (0 <= value s /\ value s + holding s = K /\ executing s <= workers s)%Z ->
  (0 <= value s' /\ value s' + holding s' = K /\ executing s' <= workers s')%Z
  /\ workers s' = workers s.
Proof.
  revert s. induction evs as [|ev evs IH]; simpl; intros s Hrun Hinv.
  - injection Hrun as <-. by split.
  - destruct (fire ev s) as [s1|] eqn:Hfire; [|discriminate].
    destruct (fire_invariant K ev s s1 Hfire Hinv) as [Hinv1 Hw1].
    destruct (IH s1 Hrun Hinv1) as [Hinv' Hw']. split; [exact Hinv' | congruence].
Qed.

Lemma count_phase_nonneg (p : phase) (s : pool) : (0 <= count_phase p s)%Z.
Proof. unfold count_phase, len. lia. Qed.

(** C2.  Let the stream processor be constructed with concurrency [K].
    Whatever the sources spawn and however the scheduler interleaves the
    calls of [process_frame_async] of all sources, the number of
    transformations executing at any moment is at most [K], and so is the
    number of calls holding a permit; the permits and the worker threads are
    those of the one processor all sources share. *)
Theorem executing_never_exceeds_limit (K : Z) (self : ReactiveVideoStream)
    (evs : list event) (s : pool) :
  ReactiveVideoStream_init K = Return self ->
  run evs (pool_of self) = Some s ->
  (executing s <= K)%Z /\ (holding s <= K)%Z /\ workers s = K.
Proof.
  intros Hinit Hrun. unfold ReactiveVideoStream_init, Semaphore, ThreadPoolExecutor in Hinit.
  destruct (Z.ltb_spec K 0); [discriminate|]. simpl in Hinit.
  destruct (Z.leb_spec K 0); [discriminate|]. simpl in Hinit.
  injection Hinit as <-.
  destruct (run_invariant K evs _ s Hrun) as [(Hvalue & Hsum & Hexec) Hworkers].
  { unfold holding, executing, count_phase, pool_of, len. simpl. lia. }
  simpl in Hworkers. pose proof (count_phase_nonneg Queued s).
  unfold holding, executing in *. lia.
Qed.

(** ** The stream registry *)

(** C9.  [start_stream] on an id that is absent answers [True] and adds the
    entry of that id and no other; on an id that is present it answers
    [False] and leaves the registry as it is.  [stop_stream] on an id that
    is present answers [True] and removes the entry of that id and no
    other; on an id that is absent it answers [False] and leaves the
    registry as it is. *)
Theorem registry_start_stop (now : timestamp) (self : VideoStreamer) (stream_id : string)
    (source : option string) :
  (stream_id ∉ dom (active_streams self) ->
   exists self',
     start_stream now self stream_id source = (true, self')
     /\ active_streams self' !! stream_id = Some (StreamInfo.mk source now "active")
     /\ dom (active_streams self') = {[stream_id]} ∪ dom (active_streams self)
     /\ size (active_streams self') = S (size (active_streams self))
     /\ forall other, other <> stream_id ->
          active_streams self' !! other = active_streams self !! other)
  /\ (stream_id ∈ dom (active_streams self) ->
      start_stream now self stream_id source = (false, self))
  /\ (stream_id ∈ dom (active_streams self) ->
      exists self',
        stop_stream self stream_id = (true, self')
        /\ active_streams self' !! stream_id = None
        /\ dom (active_streams self') = dom (active_streams self) ∖ {[stream_id]}
        /\ S (size (active_streams self')) = size (active_streams self)
        /\ forall other, other <> stream_id ->
             active_streams self' !! other = active_streams self !! other)
  /\ (stream_id ∉ dom (active_streams self) ->
      stop_stream self stream_id = (false, self)).
Proof.
  unfold start_stream, stop_stream. repeat split.
  - intros Habsent%not_elem_of_dom. rewrite Habsent. eexists. split; [reflexivity|]. simpl.
    split; [apply lookup_insert_eq|]. split; [apply dom_insert_L|].
    split; [by apply map_size_insert_None|].
    intros other Hother. by apply lookup_insert_ne.
  - intros [info Hpresent]%elem_of_dom. by rewrite Hpresent.
  - intros [info Hpresent]%elem_of_dom. rewrite Hpresent. eexists. split; [reflexivity|]. simpl.
    split; [apply lookup_delete_eq|]. split; [apply dom_delete_L|].
    split; [|intros other Hother; by apply lookup_delete_ne].
    rewrite map_size_delete, Hpresent.
    assert (size (active_streams self) <> 0%nat) as Hsize.
    { intros Hzero%map_size_empty_inv. rewrite Hzero in Hpresent. by rewrite lookup_empty in Hpresent. }
    lia.
  - intros Habsent%not_elem_of_dom. by rewrite Habsent.
Qed.

(** ** Properties of the supervisor and of the coordinator *)

Lemma filter_partition_length {A} (f : A -> bool) (l : list A) :
  (len (List.filter (fun x => negb (f x)) l) + len (List.filter f l) = len l)%Z.
Proof.
  unfold len. induction l as [|x l IH]; simpl; [reflexivity|].
  destruct (f x); simpl; lia.
Qed.

Section PipelineFacts.

Context (measured : VideoFrame.t -> timestamp).
Context (completion_order : list VideoFrame.t -> list nat).
Context (create_stream : string -> AsyncGenerator VideoFrame.t).
Context (save_frames : list ProcessedFrame.t -> string -> result unit).
Context (start_time end_time : timestamp).

#[local] Abbreviation batch_process := (batch_process measured completion_order).
#[local] Abbreviation sink_loop := (sink_loop save_frames).
#[local] Abbreviation _process_single_source :=
  (_process_single_source measured completion_order create_stream save_frames).
#[local] Abbreviation run_tasks := (run_tasks measured completion_order create_stream save_frames).
#[local] Abbreviation create_processing_pipeline :=
  (create_processing_pipeline measured completion_order create_stream save_frames start_time end_time).

(** The counters after [n] more frames and [k] more errors. *)
#[local] Abbreviation counted n k self :=
  {| stream_processor := stream_processor self;
     error_count := error_count self + k;
     processed_count := processed_count self + n |}.

Lemma sink_loop_shift video_source batches upstream :
  exists outcome n,
    forall self, sink_loop video_source batches upstream self = (outcome, counted n 0%Z self).
Proof.
  induction batches as [|processed_batch batches (outcome & n & IH)]; simpl.
  - exists (match upstream with Some e => Raise e | None => Return tt end), 0%Z.
    intros [sp errors processed]. simpl. rewrite !Z.add_0_r. by destruct upstream.
  - destruct (save_frames processed_batch video_source) as [[]|e].
    + exists outcome, (len processed_batch + n)%Z. intros [sp errors processed].
      rewrite IH. unfold add_processed. simpl. do 2 f_equal; lia.
    + exists (Raise e), (len processed_batch). intros [sp errors processed].
      unfold add_processed. simpl. do 2 f_equal; lia.
Qed.

Lemma process_single_source_shift video_source :
  exists outcome n k,
    (forall self, _process_single_source video_source self = (outcome, counted n k self))
    /\ k = (if succeeds outcome then 0 else 1)%Z.
Proof.
  unfold _process_single_source.
  destruct (sink_loop_shift video_source
              (yielded (batch_process (filter_frames (create_stream video_source) even_frame) 5))
              (raised (batch_process (filter_frames (create_stream video_source) even_frame) 5)))
    as (outcome & n & Hloop).
  destruct outcome as [[]|e].
  - exists (Return tt), n, 0%Z. split; [|reflexivity]. intros self. by rewrite Hloop.
  - exists (Raise e), n, 1%Z. split; [|reflexivity]. intros self. rewrite Hloop.
    unfold add_error. simpl. do 2 f_equal; lia.
Qed.

(** A supervisor does to any pipeline what it does to a fresh one: its
    outcome does not depend on the counters it finds, and it adds to them
    what it counts when it runs alone. *)
Lemma process_single_source_alone video_source self :
  _process_single_source video_source self
  = ((_process_single_source video_source blank_pipeline).1,
     counted (processed_count (_process_single_source video_source blank_pipeline).2)
             (error_count (_process_single_source video_source blank_pipeline).2) self).
Proof.
  destruct (process_single_source_shift video_source) as (outcome & n & k & Hshift & _).
  rewrite !Hshift. simpl. reflexivity.
Qed.

Lemma run_tasks_alone video_sources self :
  run_tasks video_sources self
  = (map (fun video_source => (_process_single_source video_source blank_pipeline).1)
       video_sources,
     counted
       (foldr (fun video_source total =>
                 processed_count (_process_single_source video_source blank_pipeline).2 + total)%Z
          0%Z video_sources)
       (foldr (fun video_source total =>
                 error_count (_process_single_source video_source blank_pipeline).2 + total)%Z
          0%Z video_sources)
       self).
Proof.
  revert self. induction video_sources as [|video_source video_sources IH]; intros self.
  - simpl. destruct self. simpl. by rewrite !Z.add_0_r.
  - simpl. rewrite (process_single_source_alone video_source self), IH.
    simpl. do 2 f_equal; lia.
Qed.

Lemma errors_alone video_source :
  error_count (_process_single_source video_source blank_pipeline).2
  = (if succeeds (_process_single_source video_source blank_pipeline).1 then 0 else 1)%Z.
Proof.
  destruct (process_single_source_shift video_source) as (outcome & n & k & Hshift & ->).
  rewrite Hshift. simpl. reflexivity.
Qed.

Lemma failures_counted video_sources :
  foldr (fun video_source total =>
           error_count (_process_single_source video_source blank_pipeline).2 + total)%Z
    0%Z video_sources
  = len (List.filter isinstance_Exception
           (map (fun video_source => (_process_single_source video_source blank_pipeline).1)
              video_sources)).
Proof.
  unfold len, isinstance_Exception.
  induction video_sources as [|video_source video_sources IH]; simpl; [reflexivity|].
  rewrite IH, errors_alone.
  destruct (succeeds (_process_single_source video_source blank_pipeline).1); simpl; lia.
Qed.

Lemma coordinator_reports_aux video_sources self :
  exists report self', create_processing_pipeline video_sources self = (Return report, self').
Proof.
  unfold create_processing_pipeline. rewrite run_tasks_alone. simpl. eauto.
Qed.

(** C4.  For every list of sources, whatever their sources and sinks do, the
    coordinator returns a report and raises nothing.  The report carries the
    elapsed time, a success count and a failure count that add up to the
    number of sources, and the total of processed frames.  A source that
    fails takes nothing from the others: the outcome recorded for each source
    and the frames counted for it are those of that source run alone. *)
Theorem coordinator_always_reports video_sources self :
  exists report self',
    create_processing_pipeline video_sources self = (Return report, self')
    /\ total_time report = (end_time - start_time)%Z
    /\ (successful report + failed report)%Z = len video_sources
    /\ failed report
       = len (List.filter isinstance_Exception
                (map (fun video_source => (_process_single_source video_source blank_pipeline).1)
                   video_sources))
    /\ (run_tasks video_sources self).1
       = map (fun video_source => (_process_single_source video_source blank_pipeline).1)
           video_sources
    /\ total_frames report
       = (processed_count self
          + foldr (fun video_source total =>
                     processed_count (_process_single_source video_source blank_pipeline).2
                     + total)%Z 0%Z video_sources)%Z
    /\ error_count self' = (error_count self + failed report)%Z.
Proof.
  unfold create_processing_pipeline. rewrite run_tasks_alone. simpl.
  eexists _, _. split; [reflexivity|]. simpl.
  split; [reflexivity|]. split.
  { rewrite filter_partition_length. unfold len. by rewrite length_map. }
  split; [reflexivity|]. split; [reflexivity|]. split; [reflexivity|].
  by rewrite failures_counted.
Qed.

(** C5, as the code has it.  The supervisor ends exactly as its body (the
    wired stream drained into the sink) ends: it returns when the body
    returns, and when the body raises it counts one error and raises the
    same exception again to its caller.  The exception goes no further than
    the coordinator: whatever the sources, the gathered results hold one
    entry per source, the entry of this source is its outcome, and the
    coordinator returns. *)
Theorem supervisor_counts_and_reraises video_source self :
  let batch_stream := batch_process (filter_frames (create_stream video_source) even_frame) 5 in
  let body := sink_loop video_source (yielded batch_stream) (raised batch_stream) self in
  let supervised := _process_single_source video_source self in
  supervised.1 = body.1
  /\ processed_count supervised.2 = processed_count body.2
  /\ error_count supervised.2 = (error_count self + if succeeds body.1 then 0 else 1)%Z
  /\ forall video_sources pipeline,
       length (run_tasks video_sources pipeline).1 = length video_sources
       /\ succeeds (create_processing_pipeline video_sources pipeline).1 = true
       /\ forall i, video_sources !! i = Some video_source ->
            (run_tasks video_sources pipeline).1 !! i = Some supervised.1.
Proof.
  intros batch_stream body supervised.
  assert (supervised.1 = body.1
          /\ processed_count supervised.2 = processed_count body.2
          /\ error_count supervised.2 = (error_count self + if succeeds body.1 then 0 else 1)%Z)
    as (Houtcome & Hprocessed & Herrors).
  { subst supervised. unfold _process_single_source. fold batch_stream. fold body.
    destruct (sink_loop_shift video_source (yielded batch_stream) (raised batch_stream))
      as (outcome & n & Hloop).
    subst body. rewrite Hloop. destruct outcome as [[]|e]; simpl; repeat split; lia. }
  repeat split; try assumption.
  - rewrite run_tasks_alone. simpl. by rewrite length_map.
  - destruct (coordinator_reports_aux video_sources pipeline) as (report & self' & ->).
    reflexivity.
  - intros i Hi. rewrite run_tasks_alone. simpl. rewrite list_lookup_fmap, Hi. simpl.
    subst supervised. by rewrite (process_single_source_alone video_source self).
Qed.

(** C6, as the code has it.  A concurrency limit that is not positive makes
    the construction of the stream processor fail with a [ValueError], so
    that no source is ever started on it, and nothing else is fatal at
    startup: the construction raises only a [ValueError] and only for such a
    limit, and the pipeline of the repository is constructed without error.
    A batch size that is not positive is checked nowhere: over a stream that
    ends normally and whose frames can be processed, [batch_process] raises
    nothing and emits every frame. *)
Theorem nonpositive_configuration (K batch_size : Z) stream :
  ((K <= 0)%Z -> exists msg, ReactiveVideoStream_init K = Raise (ValueError msg))
  /\ (forall e, ReactiveVideoStream_init K = Raise e ->
        (K <= 0)%Z /\ exists msg, e = ValueError msg)
  /\ succeeds VideoProcessingPipeline_init = true
  /\ ((batch_size <= 0)%Z ->
      raised stream = None ->
      Forall (fun frame => processable frame = true) (yielded stream) ->
      raised (batch_process stream batch_size) = None
      /\ length (yielded (batch_process stream batch_size)) = length (yielded stream)).
Proof.
  split; [|split; [|split; [reflexivity|]]].
  - intros HK. unfold ReactiveVideoStream_init, Semaphore, ThreadPoolExecutor.
    destruct (Z.ltb_spec K 0); simpl; [eauto|].
    destruct (Z.leb_spec K 0); simpl; [eauto | lia].
  - intros e. unfold ReactiveVideoStream_init, Semaphore, ThreadPoolExecutor.
    destruct (Z.ltb_spec K 0); simpl; [intros [= <-]; split; [lia | eauto]|].
    destruct (Z.leb_spec K 0); simpl; [intros [= <-]; split; [lia | eauto] | discriminate].
  - intros Hsize Hup Hall.
    destruct (batch_loop_singletons measured completion_order batch_size (yielded stream)
                Hsize Hall) as [Hraised Hone].
    unfold batch_process, batch_process_trace. simpl. rewrite Hup.
    split; [exact Hraised|]. rewrite length_map. by apply Forall2_length in Hone.
Qed.

End PipelineFacts.

(** ** The definitions at work *)

Example decode_frame_data :
  decode (String.list_byte_of_string "frame_data_7") = Return (literal "frame_data_" ++ format_int 7).
Proof. reflexivity. Qed.

Example decode_rejects_overlong : decode [xc0; x80] = Raise UnicodeDecodeError.
Proof. reflexivity. Qed.

Example codec_round_trip : decode [xe2; x82; xac] ≫= encode = Return [xe2; x82; xac].
Proof. reflexivity. Qed.

Example pipeline_batches :
  map ids_of_batch
    (yielded (batch_process instantly last_first
                (filter_frames (stream_of (map plain (range 10))) even_frame) 3))
  = [[0; 2; 4]; [6; 8]]%Z.
Proof. reflexivity. Qed.

Example garbled_frame_stops_the_batches :
  batch_process instantly in_submission_order
    (stream_of [plain 1; plain 2; garbled 3; plain 4]) 2
  = Generator [[processed 1; processed 2]] (Some UnicodeDecodeError).
Proof. reflexivity. Qed.

Example acquire_waits_for_a_permit :
  run [Spawn "video_source_0" 0; Spawn "video_source_1" 0; Acquire 0; Acquire 1]
    {| value := 1; workers := 1; tasks := [] |} = None.
Proof. reflexivity. Qed.

Example repository_pipeline_report :
  (create_processing_pipeline instantly last_first (create_video_stream wall_clock)
     _save_processed_frames 3%Z 10%Z ["video_source_0"; "video_source_1"] blank_pipeline).1
  = Return {| total_time := 7%Z; successful := 2%Z; failed := 0%Z; total_frames := 100%Z |}.
Proof. vm_compute. reflexivity. Qed.

Lemma plain_processable (ids : list Z) :
  Forall (fun frame => processable frame = true) (map plain ids).
Proof. induction ids; simpl; constructor; [reflexivity | assumption]. Qed.

(** ** The theorems at concrete inputs *)

Lemma batch_ids_follow_admission_witness :
  exists admitted before after,
    yielded (batch_process_trace instantly last_first
               (stream_of (map plain [1; 2; 3; 5; 8; 13; 21]%Z)) 3) !! 1%nat
    = Some (admitted, map processed [5; 8; 13]%Z)
    /\ map plain [1; 2; 3; 5; 8; 13; 21]%Z = before ++ admitted ++ after
    /\ ids_of_batch (map processed [5; 8; 13]%Z) = ids_of_frames admitted
    /\ (strictly_increasing (ids_of_frames (map plain [1; 2; 3; 5; 8; 13; 21]%Z)) = true ->
        strictly_increasing (ids_of_batch (map processed [5; 8; 13]%Z)) = true).
Proof.
  apply (batch_ids_follow_admission instantly last_first
           (stream_of (map plain [1; 2; 3; 5; 8; 13; 21]%Z)) 3 1
           (map processed [5; 8; 13]%Z)).
  reflexivity.
Defined.

Lemma batch_count_and_sizes_witness :
  len (yielded (batch_process instantly last_first (stream_of (map plain (range 7))) 3))
  = ((len (map plain (range 7)) + 3 - 1) / 3)%Z.
Proof.
  apply (batch_count_and_sizes instantly last_first (stream_of (map plain (range 7))) 3);
    [lia | reflexivity | apply plain_processable].
Defined.

Lemma nonpositive_batch_size_singletons_witness :
  raised (batch_process instantly last_first (stream_of (map plain (range 4))) (-2)) = None
  /\ length (yielded (batch_process instantly last_first (stream_of (map plain (range 4))) (-2)))
     = 4%nat.
Proof.
  destruct (nonpositive_batch_size_singletons instantly last_first
              (stream_of (map plain (range 4))) (-2)) as (_ & Hrun); [lia|].
  destruct Hrun as (Hraised & Hcount & _); [reflexivity | apply plain_processable |].
  split; [exact Hraised | exact Hcount].
Defined.

Lemma executing_never_exceeds_limit_witness :
  exists s,
    run busy_schedule (pool_of two_workers) = Some s
    /\ (executing s <= 2)%Z /\ (holding s <= 2)%Z /\ workers s = 2%Z.
Proof.
  eexists. split; [reflexivity|].
  apply (executing_never_exceeds_limit 2 two_workers busy_schedule); reflexivity.
Defined.

Lemma filter_frames_repeatable_witness :
  ids_of_frames (yielded (filter_frames (stream_of (map plain (range 6))) even_until_four))
  = ids_of_frames (yielded (filter_frames (stream_of (map replayed (range 6))) even_until_four)).
Proof.
  apply (filter_frames_repeatable even_until_four (stream_of (map plain (range 6)))
           (stream_of (map replayed (range 6)))).
  repeat (constructor; [split; reflexivity|]). constructor.
Defined.

Lemma registry_start_stop_witness :
  (exists self', start_stream 9%Z one_stream "cam2" None = (true, self')
                 /\ size (active_streams self') = 2%nat)
  /\ start_stream 9%Z one_stream "cam1" None = (false, one_stream)
  /\ (exists self', stop_stream one_stream "cam1" = (true, self')
                    /\ size (active_streams self') = 0%nat)
  /\ stop_stream one_stream "cam2" = (false, one_stream).
Proof.
  assert ("cam1" ∈ dom (active_streams one_stream)) as Hpresent.
  { apply elem_of_dom. eexists. reflexivity. }
  assert ("cam2" ∉ dom (active_streams one_stream)) as Habsent.
  { apply not_elem_of_dom. reflexivity. }
  destruct (registry_start_stop 9%Z one_stream "cam2" None) as (Hstart & _ & _ & Hstop).
  destruct (registry_start_stop 9%Z one_stream "cam1" None) as (_ & Hstart' & Hstop' & _).
  split; [|split; [exact (Hstart' Hpresent)|split; [|exact (Hstop Habsent)]]].
  - destruct (Hstart Habsent) as (self' & Hcall & _ & _ & Hsize & _).
    exists self'. split; [exact Hcall|]. rewrite Hsize. reflexivity.
  - destruct (Hstop' Hpresent) as (self' & Hcall & _ & _ & Hsize & _).
    exists self'. split; [exact Hcall|]. change (size (active_streams one_stream)) with 1%nat in Hsize.
    lia.
Defined.

Lemma supervisor_counts_and_reraises_witness :
  (run_tasks instantly last_first (create_video_stream wall_clock) full_disk
     ["video_source_0"; "video_source_1"] blank_pipeline).1 !! 1%nat
  = Some (_process_single_source instantly last_first (create_video_stream wall_clock) full_disk
            "video_source_1" blank_pipeline).1.
Proof.
  apply (supervisor_counts_and_reraises instantly last_first (create_video_stream wall_clock)
           full_disk 0%Z 0%Z "video_source_1" blank_pipeline).
  reflexivity.
Defined.

Lemma create_video_stream_hundred_frames_witness :
  exists frame,
    yielded (create_video_stream wall_clock "video_source_0") !! 7%nat = Some frame
    /\ VideoFrame.frame_id frame = 7%Z.
Proof.
  eexists. split; [reflexivity|].
  apply (proj2 (proj2 (proj2 (create_video_stream_hundred_frames wall_clock "video_source_0")))
           7%nat).
  reflexivity.
Defined.

Lemma nonpositive_configuration_witness :
  (exists msg, ReactiveVideoStream_init 0 = Raise (ValueError msg))
  /\ raised (batch_process instantly last_first (stream_of (map plain (range 3))) 0) = None
  /\ length (yielded (batch_process instantly last_first (stream_of (map plain (range 3))) 0))
     = length (map plain (range 3)).
Proof.
  destruct (nonpositive_configuration instantly last_first 0 0
              (stream_of (map plain (range 3)))) as (Hinit & _ & _ & Hbatch).
  split; [apply Hinit; lia|].
  apply Hbatch; [lia | reflexivity | apply plain_processable].
Defined.

(** ** Where the code departs from the specification *)

(** C5.  A sink that raises: the supervisor counts the first batch, counts
    the error, and raises the exception of the sink to its caller.  A frame
    whose processing raises: the supervisor counts the error and raises the
    exception of the processing to its caller. *)
Lemma supervisor_propagates_failure :
  _process_single_source instantly in_submission_order (create_video_stream wall_clock)
    full_disk "video_source_0" blank_pipeline
  = (Raise (OSError "disk full"),
     {| stream_processor := stream_processor blank_pipeline;
        error_count := 1%Z;
        processed_count := 5%Z |})
  /\ _process_single_source instantly in_submission_order garbled_source
       _save_processed_frames "video_source_0" blank_pipeline
     = (Raise UnicodeDecodeError,
        {| stream_processor := stream_processor blank_pipeline;
           error_count := 1%Z;
           processed_count := 0%Z |}).
Proof. split; vm_compute; reflexivity. Qed.

(** C6.  A batch size of 0: the pipeline is constructed, and [batch_process]
    runs to the end of the stream without raising. *)
Lemma nonpositive_batch_size_accepted :
  VideoProcessingPipeline_init = Return blank_pipeline
  /\ batch_process instantly in_submission_order (stream_of (map plain (range 3))) 0
     = Generator [[processed 0]; [processed 1]; [processed 2]] None.
Proof. split; reflexivity. Qed.

(** C7.  Asked for the 10 elements of the scenario of the specification,
    the frame source cannot be told so and yields 100. *)
Lemma create_video_stream_ignores_count :
  len (yielded (create_video_stream wall_clock "video_source_0")) <> 10%Z.
Proof. vm_compute. discriminate. Qed.

(** ** Further properties of the code *)

(** *** The codec *)

Lemma byte_of_to_N (b : byte) : byte_of_N (Byte.to_N b) = b.
Proof. unfold byte_of_N. by rewrite Byte.of_to_N. Qed.

Lemma to_byte_of_N (n : N) : (n < 256)%N -> Byte.to_N (byte_of_N n) = n.
Proof.
  intros Hn. unfold byte_of_N. destruct (Byte.of_N n) as [b|] eqn:Hb; simpl.
  - by apply Byte.to_of_N.
  - apply Byte.of_N_None_iff in Hb. lia.
Qed.

Lemma N_mod_offset (n m k : N) : (k * m <= n < k * m + m)%N -> (n mod m = n - k * m)%N.
Proof. intros H. symmetry. apply (N.mod_unique n m k (n - k * m)%N); lia. Qed.

Lemma N_div_offset (n m k : N) : (k * m <= n < k * m + m)%N -> (n / m = k)%N.
Proof. intros H. symmetry. apply (N.div_unique n m k (n - k * m)%N); lia. Qed.

Lemma within_spec lo hi b :
  within lo hi b = true <-> (lo <= Byte.to_N b <= hi)%N.
Proof. unfold within. rewrite andb_true_iff, !N.leb_le. tauto. Qed.

Lemma within_false lo hi b :
  within lo hi b = false <-> (Byte.to_N b < lo \/ hi < Byte.to_N b)%N.
Proof. unfold within. rewrite andb_false_iff, !N.leb_gt. tauto. Qed.

Lemma low6_continuation b : within 0x80 0xBF b = true -> (low6 b = Byte.to_N b - 0x80)%N.
Proof. intros H%within_spec. unfold low6. rewrite (N_mod_offset _ 64 2); lia. Qed.

Lemma encode_point_decoded1 b0 :
  within 0x00 0x7F b0 = true -> encode_point (Byte.to_N b0) = Return [b0].
Proof.
  intros H0%within_spec. unfold encode_point.
  destruct (N.ltb_spec (Byte.to_N b0) 0x80); [|lia]. by rewrite byte_of_to_N.
Qed.

Lemma encode_point_decoded2 b0 b1 :
  within 0xC2 0xDF b0 = true -> within 0x80 0xBF b1 = true ->
  encode_point ((Byte.to_N b0 mod 32) * 64 + low6 b1)%N = Return [b0; b1].
Proof.
  intros H0 H1. rewrite (low6_continuation b1 H1).
  apply within_spec in H0, H1.
  rewrite (N_mod_offset _ 32 6) by lia.
  set (c := ((Byte.to_N b0 - 6 * 32) * 64 + (Byte.to_N b1 - 0x80))%N).
  assert (0x80 <= c < 0x800)%N as Hc by lia.
  assert (c / 64 = Byte.to_N b0 - 0xC0)%N as D0 by (apply N_div_offset; lia).
  assert (c mod 64 = Byte.to_N b1 - 0x80)%N as D1.
  { rewrite (N_mod_offset c 64 (Byte.to_N b0 - 0xC0)); lia. }
  unfold encode_point. rewrite D0, D1.
  replace (0xC0 + (Byte.to_N b0 - 0xC0))%N with (Byte.to_N b0) by lia.
  replace (0x80 + (Byte.to_N b1 - 0x80))%N with (Byte.to_N b1) by lia.
  rewrite !byte_of_to_N.
  destruct (N.ltb_spec c 0x80); [lia|]. destruct (N.ltb_spec c 0x800); [|lia]. reflexivity.
Qed.

Lemma encode_point_decoded3 b0 b1 b2 :
  within 0xE0 0xEF b0 = true ->
  within (if within 0xE0 0xE0 b0 then 0xA0%N else 0x80%N)
         (if within 0xED 0xED b0 then 0x9F%N else 0xBF%N) b1 = true ->
  within 0x80 0xBF b2 = true ->
  encode_point ((Byte.to_N b0 mod 16) * 4096 + low6 b1 * 64 + low6 b2)%N = Return [b0; b1; b2].
Proof.
  intros H0 H1 H2. rewrite (low6_continuation b2 H2).
  apply within_spec in H0, H2.
  assert ((0x80 <= Byte.to_N b1 <= 0xBF)
          /\ (Byte.to_N b0 = 0xE0 -> 0xA0 <= Byte.to_N b1)
          /\ (Byte.to_N b0 = 0xED -> Byte.to_N b1 <= 0x9F))%N as (H1' & Hlo & Hhi).
  { destruct (within 0xE0 0xE0 b0) eqn:Elo; [apply within_spec in Elo | apply within_false in Elo];
    destruct (within 0xED 0xED b0) eqn:Ehi; [apply within_spec in Ehi | apply within_false in Ehi
                                            | apply within_spec in Ehi | apply within_false in Ehi];
    apply within_spec in H1; lia. }
  clear H1. unfold low6. rewrite (N_mod_offset (Byte.to_N b1) 64 2) by lia.
  rewrite (N_mod_offset _ 16 14) by lia.
  set (x0 := (Byte.to_N b0 - 14 * 16)%N). set (x1 := (Byte.to_N b1 - 2 * 64)%N).
  set (x2 := (Byte.to_N b2 - 0x80)%N).
  set (c := (x0 * 4096 + x1 * 64 + x2)%N).
  assert (0x800 <= c < 0xD800 \/ 0xDFFF < c < 0x10000)%N as Hc by lia.
  assert (c / 4096 = x0)%N as D0 by (apply N_div_offset; lia).
  assert (c / 64 = x0 * 64 + x1)%N as D by (apply N_div_offset; lia).
  assert ((c / 64) mod 64 = x1)%N as D1.
  { rewrite D. rewrite (N_mod_offset _ 64 x0); lia. }
  assert (c mod 64 = x2)%N as D2.
  { rewrite (N_mod_offset c 64 (x0 * 64 + x1)); lia. }
  unfold encode_point. rewrite D0, D1, D2.
  replace (0xE0 + x0)%N with (Byte.to_N b0) by lia.
  replace (0x80 + x1)%N with (Byte.to_N b1) by lia.
  replace (0x80 + x2)%N with (Byte.to_N b2) by lia.
  rewrite !byte_of_to_N.
  destruct (N.ltb_spec c 0x80); [lia|]. destruct (N.ltb_spec c 0x800); [lia|].
  destruct (N.leb_spec 0xD800 c); destruct (N.leb_spec c 0xDFFF); simpl; try lia;
    destruct (N.ltb_spec c 0x10000); try lia; reflexivity.
Qed.

Lemma encode_point_decoded4 b0 b1 b2 b3 :
  within 0xF0 0xF4 b0 = true ->
  within (if within 0xF0 0xF0 b0 then 0x90%N else 0x80%N)
         (if within 0xF4 0xF4 b0 then 0x8F%N else 0xBF%N) b1 = true ->
  within 0x80 0xBF b2 = true ->
  within 0x80 0xBF b3 = true ->
  encode_point ((Byte.to_N b0 mod 8) * 262144 + low6 b1 * 4096 + low6 b2 * 64 + low6 b3)%N
  = Return [b0; b1; b2; b3].
Proof.
  intros H0 H1 H2 H3. rewrite (low6_continuation b2 H2), (low6_continuation b3 H3).
  apply within_spec in H0, H2, H3.
  assert ((0x80 <= Byte.to_N b1 <= 0xBF)
          /\ (Byte.to_N b0 = 0xF0 -> 0x90 <= Byte.to_N b1)
          /\ (Byte.to_N b0 = 0xF4 -> Byte.to_N b1 <= 0x8F))%N as (H1' & Hlo & Hhi).
  { destruct (within 0xF0 0xF0 b0) eqn:Elo; [apply within_spec in Elo | apply within_false in Elo];
    destruct (within 0xF4 0xF4 b0) eqn:Ehi; [apply within_spec in Ehi | apply within_false in Ehi
                                            | apply within_spec in Ehi | apply within_false in Ehi];
    apply within_spec in H1; lia. }
  clear H1. unfold low6. rewrite (N_mod_offset (Byte.to_N b1) 64 2) by lia.
  rewrite (N_mod_offset _ 8 30) by lia.
  set (x0 := (Byte.to_N b0 - 30 * 8)%N). set (x1 := (Byte.to_N b1 - 2 * 64)%N).
  set (x2 := (Byte.to_N b2 - 0x80)%N). set (x3 := (Byte.to_N b3 - 0x80)%N).
  set (c := (x0 * 262144 + x1 * 4096 + x2 * 64 + x3)%N).
  assert (0x10000 <= c < 0x110000)%N as Hc by lia.
  assert (c / 262144 = x0)%N as D0 by (apply N_div_offset; lia).
  assert (c / 4096 = x0 * 64 + x1)%N as Da by (apply N_div_offset; lia).
  assert (c / 64 = (x0 * 64 + x1) * 64 + x2)%N as Db by (apply N_div_offset; lia).
  assert ((c / 4096) mod 64 = x1)%N as D1.
  { rewrite Da. rewrite (N_mod_offset _ 64 x0); lia. }
  assert ((c / 64) mod 64 = x2)%N as D2.
  { rewrite Db. rewrite (N_mod_offset _ 64 (x0 * 64 + x1)); lia. }
  assert (c mod 64 = x3)%N as D3.
  { rewrite (N_mod_offset c 64 ((x0 * 64 + x1) * 64 + x2)); lia. }
  unfold encode_point. rewrite D0, D1, D2, D3.
  replace (0xF0 + x0)%N with (Byte.to_N b0) by lia.
  replace (0x80 + x1)%N with (Byte.to_N b1) by lia.
  replace (0x80 + x2)%N with (Byte.to_N b2) by lia.
  replace (0x80 + x3)%N with (Byte.to_N b3) by lia.
  rewrite !byte_of_to_N.
  destruct (N.ltb_spec c 0x80); [lia|]. destruct (N.ltb_spec c 0x800); [lia|].
  destruct (N.leb_spec 0xD800 c); destruct (N.leb_spec c 0xDFFF); simpl; try lia;
    destruct (N.ltb_spec c 0x10000); try lia;
    destruct (N.ltb_spec c 0x110000); try lia; reflexivity.
Qed.

Lemma decode_then_encode_bounded (n : nat) (bs : list byte) (s : str) :
  length bs <= n -> decode bs = Return s -> encode s = Return bs.
Proof.
  revert bs s. induction n as [|n IH]; intros bs s Hlen Hdec.
  - destruct bs; [|simpl in Hlen; lia]. simpl in Hdec. by injection Hdec as <-.
  - destruct bs as [|b0 r0]; [simpl in Hdec; by injection Hdec as <-|].
    simpl in Hlen. simpl in Hdec.
    destruct (within 0x00 0x7F b0) eqn:W1.
    { apply bind_Return in Hdec as (s' & Hs' & [= <-]). simpl.
      rewrite (encode_point_decoded1 _ W1). simpl.
      rewrite (IH r0 s') by (lia || done). reflexivity. }
    destruct (within 0xC2 0xDF b0) eqn:W2.
    { destruct r0 as [|b1 r1]; [discriminate|].
      destruct (within 0x80 0xBF b1) eqn:Wb1; [|discriminate].
      apply bind_Return in Hdec as (s' & Hs' & [= <-]). simpl.
      rewrite (encode_point_decoded2 _ _ W2 Wb1). simpl.
      rewrite (IH r1 s') by (simpl in Hlen; lia || done). reflexivity. }
    destruct (within 0xE0 0xEF b0) eqn:W3.
    { destruct r0 as [|b1 [|b2 r2]]; try discriminate.
      destruct (within _ _ b1) eqn:Wb1; [|discriminate].
      destruct (within 0x80 0xBF b2) eqn:Wb2; [|discriminate]. simpl in Hdec.
      apply bind_Return in Hdec as (s' & Hs' & [= <-]). simpl.
      rewrite (encode_point_decoded3 _ _ _ W3 Wb1 Wb2). simpl.
      rewrite (IH r2 s') by (simpl in Hlen; lia || done). reflexivity. }
    destruct (within 0xF0 0xF4 b0) eqn:W4; [|discriminate].
    destruct r0 as [|b1 [|b2 [|b3 r3]]]; try discriminate.
    destruct (within _ _ b1) eqn:Wb1; [|discriminate].
    destruct (within 0x80 0xBF b2) eqn:Wb2; [|discriminate].
    destruct (within 0x80 0xBF b3) eqn:Wb3; [|discriminate]. simpl in Hdec.
    apply bind_Return in Hdec as (s' & Hs' & [= <-]). simpl.
    rewrite (encode_point_decoded4 _ _ _ _ W4 Wb1 Wb2 Wb3). simpl.
    rewrite (IH r3 s') by (simpl in Hlen; lia || done). reflexivity.
Qed.

Lemma decode_then_encode (bs : list byte) (s : str) :
  decode bs = Return s -> encode s = Return bs.
Proof. apply (decode_then_encode_bounded (length bs)). lia. Qed.

Lemma within_true lo hi b : (lo <= Byte.to_N b <= hi)%N -> within lo hi b = true.
Proof. apply within_spec. Qed.

Lemma within_out lo hi b : (Byte.to_N b < lo \/ hi < Byte.to_N b)%N -> within lo hi b = false.
Proof. apply within_false. Qed.

Lemma decode_encoded_point (c : N) (bc rest : list byte) (s : str) :
  encode_point c = Return bc ->
  decode rest = Return s ->
  decode (bc ++ rest) = Return (c :: s).
Proof.
  unfold encode_point. intros Henc Hrest.
  pose proof (N.div_mod' c 64) as Hc. pose proof (N.mod_lt c 64 ltac:(lia)) as Hr.
  pose proof (N.div_mod' (c / 64) 64) as Hq. pose proof (N.mod_lt (c / 64) 64 ltac:(lia)) as Hqr.
  pose proof (N.div_mod' (c / 64 / 64) 64) as Hp.
  pose proof (N.mod_lt (c / 64 / 64) 64 ltac:(lia)) as Hpr.
  change 4096%N with (64 * 64)%N in Henc. change 262144%N with (64 * 64 * 64)%N in Henc.
  rewrite <- !N.Div0.div_div in Henc.
  set (r := (c mod 64)%N) in *. set (q := (c / 64)%N) in *.
  set (q1 := (q mod 64)%N) in *. set (p := (q / 64)%N) in *.
  set (p1 := (p mod 64)%N) in *. set (t := (p / 64)%N) in *.
  destruct (N.ltb_spec c 0x80).
  { injection Henc as <-. simpl.
    rewrite within_true by (rewrite to_byte_of_N; lia).
    rewrite Hrest. simpl. by rewrite to_byte_of_N by lia. }
  destruct (N.ltb_spec c 0x800).
  { injection Henc as <-. simpl.
    assert (Byte.to_N (byte_of_N (0xC0 + q)) = 0xC0 + q)%N as E0 by (apply to_byte_of_N; lia).
    assert (Byte.to_N (byte_of_N (0x80 + r)) = 0x80 + r)%N as E1 by (apply to_byte_of_N; lia).
    rewrite within_out by (rewrite E0; lia).
    rewrite within_true by (rewrite E0; lia).
    rewrite within_true by (rewrite E1; lia).
    rewrite Hrest. simpl. unfold low6. rewrite E0, E1.
    rewrite (N_mod_offset _ 32 6) by lia. rewrite (N_mod_offset _ 64 2) by lia.
    do 2 f_equal. lia. }
  destruct (N.leb_spec 0xD800 c); destruct (N.leb_spec c 0xDFFF); simpl in Henc;
    try discriminate.
  all: destruct (N.ltb_spec c 0x10000).
  all: try (injection Henc as <-; simpl;
    assert (Byte.to_N (byte_of_N (0xE0 + p)) = 0xE0 + p)%N as E0 by (apply to_byte_of_N; lia);
    assert (Byte.to_N (byte_of_N (0x80 + q1)) = 0x80 + q1)%N as E1 by (apply to_byte_of_N; lia);
    assert (Byte.to_N (byte_of_N (0x80 + r)) = 0x80 + r)%N as E2 by (apply to_byte_of_N; lia);
    rewrite within_out by (rewrite E0; lia);
    rewrite within_out by (rewrite E0; lia);
    rewrite within_true by (rewrite E0; lia);
    destruct (within 0xE0 0xE0 (byte_of_N (0xE0 + p))) eqn:Wlo;
      [apply within_spec in Wlo | apply within_false in Wlo];
    (destruct (within 0xED 0xED (byte_of_N (0xE0 + p))) eqn:Whi;
      [apply within_spec in Whi | apply within_false in Whi]);
    rewrite E0 in Wlo, Whi;
    rewrite within_true by (rewrite E1; lia);
    rewrite within_true by (rewrite E2; lia);
    simpl; rewrite Hrest; simpl; unfold low6; rewrite E0, E1, E2;
    rewrite (N_mod_offset _ 16 14) by lia; rewrite !(N_mod_offset _ 64 2) by lia;
    do 2 f_equal; lia).
  all: destruct (N.ltb_spec c 0x110000); try discriminate.
  all: injection Henc as <-; simpl;
    assert (Byte.to_N (byte_of_N (0xF0 + t)) = 0xF0 + t)%N as E0 by (apply to_byte_of_N; lia);
    assert (Byte.to_N (byte_of_N (0x80 + p1)) = 0x80 + p1)%N as E1 by (apply to_byte_of_N; lia);
    assert (Byte.to_N (byte_of_N (0x80 + q1)) = 0x80 + q1)%N as E2 by (apply to_byte_of_N; lia);
    assert (Byte.to_N (byte_of_N (0x80 + r)) = 0x80 + r)%N as E3 by (apply to_byte_of_N; lia);
    rewrite within_out by (rewrite E0; lia);
    rewrite within_out by (rewrite E0; lia);
    rewrite within_out by (rewrite E0; lia);
    rewrite within_true by (rewrite E0; lia);
    destruct (within 0xF0 0xF0 (byte_of_N (0xF0 + t))) eqn:Wlo;
      [apply within_spec in Wlo | apply within_false in Wlo];
    (destruct (within 0xF4 0xF4 (byte_of_N (0xF0 + t))) eqn:Whi;
      [apply within_spec in Whi | apply within_false in Whi]);
    rewrite E0 in Wlo, Whi;
    rewrite within_true by (rewrite E1; lia);
    rewrite within_true by (rewrite E2; lia);
    rewrite within_true by (rewrite E3; lia);
    simpl; rewrite Hrest; simpl; unfold low6; rewrite E0, E1, E2, E3;
    rewrite (N_mod_offset _ 8 30) by lia; rewrite !(N_mod_offset _ 64 2) by lia;
    do 2 f_equal; lia.
Qed.

Lemma encode_then_decode (s : str) (bs : list byte) :
  encode s = Return bs -> decode bs = Return s.
Proof.
  revert bs. induction s as [|c s IH]; simpl; intros bs Henc.
  - by injection Henc as <-.
  - apply bind_Return in Henc as (bc & Hbc & Henc).
    apply bind_Return in Henc as (rest & Hrest & [= <-]).
    apply (decode_encoded_point c bc rest s Hbc). by apply IH.
Qed.

(** X1.  The codec behind [encode()] and [decode()] is a bijection between
    well-formed UTF-8 byte strings and the texts that can be encoded: bytes
    decode to a text exactly when that text encodes to those bytes. *)
Theorem utf8_round_trip (bs : list byte) (s : str) :
  decode bs = Return s <-> encode s = Return bs.
Proof.
  split.
  - intros Hdecoded. apply (decode_then_encode_bounded (length bs)); [lia | exact Hdecoded].
  - intros Hencoded. by apply encode_then_decode.
Qed.

(** *** Per-frame processing and the operators *)

Lemma bind_Raise {A B} (r : result A) (k : A -> result B) (e : Exception) :
  r ≫= k = Raise e -> r = Raise e \/ exists a, r = Return a /\ k a = Raise e.
Proof. destruct r as [a|e']; simpl; [eauto | intros [= ->]; by left]. Qed.

Lemma decode_raises_bounded (n : nat) (bs : list byte) (e : Exception) :
  length bs <= n -> decode bs = Raise e -> e = UnicodeDecodeError.
Proof.
  revert bs. induction n as [|n IH]; intros bs Hlen Hdec.
  - destruct bs; [discriminate | simpl in Hlen; lia].
  - destruct bs as [|b0 r0]; [discriminate|]. simpl in Hlen, Hdec.
    repeat match type of Hdec with
    | (if ?c then _ else _) = _ => destruct c; simpl in Hdec
    | match ?l with [] => _ | _ :: _ => _ end = _ => destruct l; simpl in Hlen, Hdec
    | Raise _ = Raise _ => by injection Hdec as <-
    end.
    all: apply bind_Raise in Hdec as [Hdec | (s' & _ & [=])].
    all: apply IH in Hdec; [done | lia].
Qed.

Lemma encode_app (s1 s2 : str) :
  encode (s1 ++ s2) = b1 ← encode s1; b2 ← encode s2; Return (b1 ++ b2).
Proof.
  induction s1 as [|c s1 IH]; simpl.
  - by destruct (encode s2).
  - destruct (encode_point c) as [bc|e]; simpl; [|reflexivity].
    rewrite IH. destruct (encode s1) as [b1|e]; simpl; [|reflexivity].
    destruct (encode s2) as [b2|e]; simpl; [|reflexivity]. by rewrite app_assoc.
Qed.

(** X2.  [_cpu_intensive_processing] returns exactly when its argument is
    well-formed UTF-8, and raises [UnicodeDecodeError] otherwise; what it
    returns is the argument, byte for byte, after the bytes of
    [processed_]. *)
Theorem processing_prefixes_payload (data : list byte) :
  _cpu_intensive_processing data
  = match decode data with
    | Return _ => Return (String.list_byte_of_string "processed_" ++ data)
    | Raise _ => Raise UnicodeDecodeError
    end.
Proof.
  unfold _cpu_intensive_processing.
  destruct (decode data) as [s|e] eqn:Hdec.
  - unfold mbind, result_bind.
    rewrite encode_app, (decode_then_encode _ _ Hdec). reflexivity.
  - simpl. by rewrite (decode_raises_bounded _ _ e (Nat.le_refl _) Hdec).
Qed.

Lemma apply_each_app ts1 ts2 frame :
  apply_each (ts1 ++ ts2) frame = apply_each ts1 frame ≫= apply_each ts2.
Proof.
  revert frame. induction ts1 as [|t ts1 IH]; intros frame; simpl; [reflexivity|].
  destruct (t frame) as [f|e]; simpl; [apply IH | reflexivity].
Qed.

(** X3.  [apply_transformations] with no transformation gives the stream
    back, and applying two lists of transformations one after the other is
    applying their concatenation, also when transformations raise. *)
Theorem apply_transformations_compose stream ts1 ts2 :
  apply_transformations stream [] = stream
  /\ apply_transformations (apply_transformations stream ts1) ts2
     = apply_transformations stream (ts1 ++ ts2).
Proof.
  unfold apply_transformations. destruct stream as [frames upstream]. simpl. split.
  - induction frames as [|frame frames IH]; simpl; [reflexivity|].
    rewrite IH. reflexivity.
  - induction frames as [|frame frames IH]; simpl; [reflexivity|].
    rewrite apply_each_app.
    destruct (apply_each ts1 frame) as [f1|e]; simpl; [|reflexivity].
    destruct (apply_each ts2 f1) as [f2|e]; simpl; [|reflexivity].
    by rewrite IH.
Qed.

(** X4.  Filtering with [p] and then with [q] is filtering once with
    "[p] and then [q]", also when a predicate raises.  When neither predicate
    raises on a frame of the stream, the order of the two filters does not
    matter. *)
Theorem filter_frames_compose stream (p q : VideoFrame.t -> result bool) :
  filter_frames (filter_frames stream p) q
  = filter_frames stream (and_then p q)
  /\ (Forall (fun frame => succeeds (p frame) = true /\ succeeds (q frame) = true)
        (yielded stream) ->
      filter_frames (filter_frames stream p) q = filter_frames (filter_frames stream q) p).
Proof.
  assert (forall p q : VideoFrame.t -> result bool, filter_frames (filter_frames stream p) q
                      = filter_frames stream
                          (and_then p q))
    as Hboth.
  { clear p q. intros p q. unfold filter_frames. destruct stream as [frames upstream]. simpl.
    induction frames as [|frame frames IH]; simpl; [reflexivity|].
    unfold and_then at 1.
    destruct (p frame) as [[]|e]; simpl; [|exact IH | reflexivity].
    destruct (q frame) as [[]|e]; simpl; [by rewrite IH | exact IH | reflexivity]. }
  split; [apply Hboth|]. intros Hquiet. rewrite !Hboth. unfold filter_frames.
  generalize (raised stream) as upstream. intros upstream.
  induction Hquiet as [|frame frames [Hp Hq] _ IH]; simpl; [reflexivity|].
  assert (and_then p q frame = and_then q p frame) as ->.
  { unfold and_then. destruct (p frame) as [[]|e]; [| |discriminate];
      (destruct (q frame) as [[]|e]; [| |discriminate]); reflexivity. }
  destruct (and_then q p frame) as [[]|e]; simpl; by rewrite ?IH.
Qed.

Section MoreBatchFacts.

Context (measured : VideoFrame.t -> timestamp).

Lemma gather_order_irrelevant {A} (o1 o2 : list nat) (outcomes : list (result A)) :
  match gather o1 outcomes, gather o2 outcomes with
  | Return v1, Return v2 => v1 = v2
  | Raise _, Raise _ => True
  | _, _ => False
  end.
Proof.
  destruct (in_position outcomes) as [values|e] eqn:Hpos.
  - assert (Forall (fun r => succeeds r = true) outcomes) as Hall.
    { clear o1 o2. revert values Hpos. induction outcomes as [|r outcomes IH]; intros values Hpos;
        [constructor|].
      simpl in Hpos. apply bind_Return in Hpos as (a & -> & Hpos).
      apply bind_Return in Hpos as (rest & Hrest & _). constructor; [reflexivity | eauto]. }
    unfold gather. rewrite !first_raised_none by exact Hall. by rewrite Hpos.
  - unfold gather. rewrite Hpos. by destruct (first_raised o1 outcomes), (first_raised o2 outcomes).
Qed.

Lemma batch_loop_order_irrelevant o1 o2 batch_size frames batch upstream :
  yielded (batch_loop measured o1 batch_size batch frames upstream)
  = yielded (batch_loop measured o2 batch_size batch frames upstream)
  /\ (raised (batch_loop measured o1 batch_size batch frames upstream) = None
      <-> raised (batch_loop measured o2 batch_size batch frames upstream) = None).
Proof.
  revert batch. induction frames as [|frame frames IH]; intros batch; simpl.
  - destruct upstream; [done|]. destruct batch as [|f batch]; [done|].
    unfold process_batch.
    pose proof (gather_order_irrelevant (o1 (f :: batch)) (o2 (f :: batch))
                  (map (process_frame_async measured) (f :: batch))) as Hg.
    destruct (gather (o1 (f :: batch)) _), (gather (o2 (f :: batch)) _); simpl; try done.
    by subst.
  - destruct (batch_size <=? len (batch ++ [frame]))%Z; [|apply IH].
    unfold process_batch.
    pose proof (gather_order_irrelevant (o1 (batch ++ [frame])) (o2 (batch ++ [frame]))
                  (map (process_frame_async measured) (batch ++ [frame]))) as Hg.
    destruct (gather (o1 (batch ++ [frame])) _), (gather (o2 (batch ++ [frame])) _);
      simpl; try done.
    subst. destruct (IH []) as [-> Hraised]. by split.
Qed.

(** X7.  The batches [batch_process] emits, and whether it ends normally,
    do not depend on the order in which the concurrent tasks of a batch
    complete. *)
Theorem batches_independent_of_completion_order o1 o2 stream batch_size :
  yielded (batch_process measured o1 stream batch_size)
  = yielded (batch_process measured o2 stream batch_size)
  /\ (raised (batch_process measured o1 stream batch_size) = None
      <-> raised (batch_process measured o2 stream batch_size) = None).
Proof.
  unfold batch_process, batch_process_trace. simpl.
  destruct (batch_loop_order_irrelevant o1 o2 batch_size (yielded stream) [] (raised stream))
    as [-> Hraised].
  by split.
Qed.

Context (completion_order : list VideoFrame.t -> list nat).

#[local] Abbreviation process_batch := (process_batch measured completion_order).
#[local] Abbreviation batch_loop := (batch_loop measured completion_order).
#[local] Abbreviation batch_process := (batch_process measured completion_order).

Lemma batch_loop_complete batch_size frames batch upstream :
  raised (batch_loop batch_size batch frames upstream) = None ->
  upstream = None
  /\ concat (map fst (yielded (batch_loop batch_size batch frames upstream))) = batch ++ frames.
Proof.
  revert batch. induction frames as [|frame frames IH]; intros batch; simpl.
  - destruct upstream as [e|]; simpl; [discriminate|].
    destruct batch as [|f batch]; simpl; [done|].
    destruct (process_batch (f :: batch)) as [pb|e]; simpl; [|discriminate].
    intros _. split; [done|]. simpl. by rewrite ?app_nil_r.
  - destruct (batch_size <=? len (batch ++ [frame]))%Z.
    + destruct (process_batch (batch ++ [frame])) as [pb|e]; simpl; [|discriminate].
      intros Hraised. destruct (IH [] Hraised) as [-> Hcat]. split; [done|].
      rewrite Hcat. simpl. by rewrite <- app_assoc.
    + intros Hraised. destruct (IH _ Hraised) as [-> Hcat]. split; [done|].
      rewrite Hcat. by rewrite <- app_assoc.
Qed.

Lemma trace_ids (trace : list (list VideoFrame.t * list ProcessedFrame.t)) :
  Forall (fun entry => ids_of_batch entry.2 = ids_of_frames entry.1) trace ->
  concat (map ids_of_batch (map snd trace)) = ids_of_frames (concat (map fst trace)).
Proof.
  induction 1 as [|entry trace Hentry _ IH]; simpl; [reflexivity|].
  unfold ids_of_frames in *. rewrite map_app, <- IH, Hentry. reflexivity.
Qed.

(** X5.  [batch_process] neither drops, nor repeats, nor reorders frames:
    the ids of its batches, one batch after the other, are a prefix of the
    ids of its input; when it ends normally its input ended normally and
    they are all the ids of its input. *)
Theorem batches_conserve_frames stream batch_size :
  (exists unflushed,
     ids_of_frames (yielded stream)
     = concat (map ids_of_batch (yielded (batch_process stream batch_size))) ++ unflushed)
  /\ (raised (batch_process stream batch_size) = None ->
      raised stream = None
      /\ concat (map ids_of_batch (yielded (batch_process stream batch_size)))
         = ids_of_frames (yielded stream)).
Proof.
  destruct (batch_loop_trace measured completion_order batch_size (yielded stream) []
              (raised stream)) as [Hids [unflushed Hcat]].
  unfold batch_process, batch_process_trace. simpl in *.
  rewrite (trace_ids _ Hids). split.
  - exists (ids_of_frames unflushed). unfold ids_of_frames. rewrite <- map_app. by f_equal.
  - intros Hraised. apply batch_loop_complete in Hraised as [Hup Hall].
    split; [exact Hup|]. by rewrite Hall.
Qed.

Lemma batch_loop_bounds batch_size frames batch upstream :
  (len batch < Z.max batch_size 1)%Z ->
  Forall (fun entry => (1 <= len entry.2 <= Z.max batch_size 1)%Z)
    (yielded (batch_loop batch_size batch frames upstream)).
Proof.
  revert batch. induction frames as [|frame frames IH]; intros batch Hroom; simpl.
  - destruct upstream; simpl; [constructor|].
    destruct batch as [|f batch]; simpl; [constructor|].
    destruct (process_batch (f :: batch)) as [pb|e] eqn:Hpb; simpl; [|constructor].
    apply (process_batch_ids measured completion_order) in Hpb as [_ Hlen].
    constructor; [|constructor]. simpl. unfold len in *. rewrite Hlen. simpl in *. lia.
  - assert (len (batch ++ [frame]) = len batch + 1)%Z as Hlen1.
    { unfold len. rewrite length_app. simpl. lia. }
    destruct (Z.leb_spec batch_size (len (batch ++ [frame]))) as [Hfull|Hmore].
    + destruct (process_batch (batch ++ [frame])) as [pb|e] eqn:Hpb; simpl; [|constructor].
      apply (process_batch_ids measured completion_order) in Hpb as [_ Hlen].
      constructor; [|apply IH; unfold len; simpl; lia].
      simpl. unfold len in *. rewrite Hlen. lia.
    + apply IH. lia.
Qed.

(** X6.  Whatever the stream and the batch size, no emitted batch is empty
    and none holds more than [max(batch_size, 1)] frames. *)
Theorem batches_never_empty_nor_oversized stream batch_size :
  Forall (fun processed_batch => (1 <= len processed_batch <= Z.max batch_size 1)%Z)
    (yielded (batch_process stream batch_size)).
Proof.
  unfold batch_process, batch_process_trace. simpl. rewrite Forall_map.
  apply batch_loop_bounds. unfold len. simpl. lia.
Qed.

End MoreBatchFacts.

(** *** The synchronous processor *)

Lemma encode_ascii (s : str) :
  Forall (fun c => (c < 0x80)%N) s -> encode s = Return (map byte_of_N s).
Proof.
  induction 1 as [|c s Hc _ IH]; simpl; [reflexivity|].
  unfold encode_point. destruct (N.ltb_spec c 0x80); [|lia]. simpl. by rewrite IH.
Qed.

Lemma literal_digits (d : Decimal.uint) :
  Forall (fun c => (c < 0x80)%N) (literal (NilEmpty.string_of_uint d)).
Proof.
  unfold literal. induction d; simpl; constructor; try done; try exact IHd.
Qed.

Lemma format_int_ascii (n : Z) : Forall (fun c => (c < 0x80)%N) (format_int n).
Proof.
  unfold format_int, NilEmpty.string_of_int.
  destruct (Z.to_int n) as [d|d]; [apply literal_digits|].
  unfold literal. simpl. constructor; [done | apply literal_digits].
Qed.

Lemma frame_data_total (frame_id : Z) :
  exists data,
    frame_data frame_id = Return data
    /\ decode data = Return (literal "frame_data_" ++ format_int frame_id).
Proof.
  unfold frame_data.
  assert (Forall (fun c => (c < 0x80)%N) (literal "frame_data_" ++ format_int frame_id)) as Hascii.
  { apply Forall_app. split; [|apply format_int_ascii]. unfold literal. simpl.
    repeat constructor. }
  rewrite (encode_ascii _ Hascii). eexists. split; [reflexivity|].
  apply encode_then_decode, encode_ascii, Hascii.
Qed.

Lemma decoded_is_processable (frame : VideoFrame.t) (s : str) :
  decode (VideoFrame.data frame) = Return s -> processable frame = true.
Proof.
  intros Hdec. unfold processable, _cpu_intensive_processing. rewrite Hdec.
  unfold mbind, result_bind. rewrite encode_app, (decode_then_encode _ _ Hdec). reflexivity.
Qed.

Section TraditionalFacts.

Context (generated_at : string -> Z -> timestamp).
Context (sync_start_time sync_end_time : timestamp).

Lemma generate_frames_loop_spec source ids frames :
  exists generated,
    _generate_frames_loop generated_at source ids frames = Return (frames ++ generated)
    /\ ids_of_frames generated = ids
    /\ Forall (fun frame =>
                 decode (VideoFrame.data frame)
                 = Return (literal "frame_data_" ++ format_int (VideoFrame.frame_id frame)))
         generated.
Proof.
  revert frames. induction ids as [|i ids IH]; intros frames; simpl.
  - exists []. by rewrite app_nil_r.
  - destruct (frame_data_total i) as (data & -> & Hdec). simpl.
    destruct (IH (frames ++
                  [VideoFrame.mk i data (generated_at source i) {[ "source" := source ]}]))
      as (generated & -> & Hids & Hall).
    eexists (_ :: generated). rewrite <- app_assoc. split; [reflexivity|].
    split; [simpl; by rewrite Hids|]. by constructor.
Qed.

(** X8.  [_generate_frames] never raises; for every [count] it returns
    [max(count, 0)] frames whose ids are 0, 1, ..., count - 1 in order, and
    the payload of each decodes to the text [frame_data_<id>]. *)
Theorem generate_frames_counts source count :
  exists frames,
    _generate_frames generated_at source count = Return frames
    /\ ids_of_frames frames = range count
    /\ len frames = Z.max count 0
    /\ Forall (fun frame =>
                 decode (VideoFrame.data frame)
                 = Return (literal "frame_data_" ++ format_int (VideoFrame.frame_id frame)))
         frames.
Proof.
  unfold _generate_frames.
  destruct (generate_frames_loop_spec source (range count) []) as (frames & Hrun & Hids & Hall).
  exists frames. split; [exact Hrun|]. split; [exact Hids|]. split; [|exact Hall].
  unfold len. apply (f_equal length) in Hids. unfold ids_of_frames, range in Hids.
  rewrite !length_map, length_seq in Hids. rewrite Hids. lia.
Qed.

Lemma process_frames_sync_counts frames total_frames :
  process_frames_sync frames total_frames = (total_frames + len frames)%Z.
Proof.
  unfold len. revert total_frames. induction frames as [|frame frames IH]; intros total; simpl.
  - lia.
  - rewrite IH. lia.
Qed.

Lemma process_sources_sync_counts video_sources total_frames :
  process_sources_sync generated_at video_sources total_frames
  = Return (total_frames + 50 * len video_sources)%Z.
Proof.
  unfold len. revert total_frames.
  induction video_sources as [|source video_sources IH]; intros total;
    cbn [process_sources_sync length].
  - f_equal. lia.
  - unfold _generate_frames.
    destruct (generate_frames_loop_spec source (range 50) []) as (frames & -> & Hids & _).
    cbn [mbind result_bind app].
    assert (len frames = 50%Z) as Hlen.
    { unfold len. apply (f_equal length) in Hids. unfold ids_of_frames in Hids.
      rewrite length_map in Hids. rewrite Hids. reflexivity. }
    rewrite IH, process_frames_sync_counts, Hlen. f_equal. lia.
Qed.

(** X9.  [process_videos_sync] never raises and reports 50 frames per
    source, with the elapsed time. *)
Theorem process_videos_sync_counts video_sources :
  process_videos_sync generated_at sync_start_time sync_end_time video_sources
  = Return (SyncReport.mk (sync_end_time - sync_start_time)%Z (50 * len video_sources)%Z).
Proof.
  unfold process_videos_sync. rewrite process_sources_sync_counts. simpl. reflexivity.
Qed.

End TraditionalFacts.

(** *** The scheduler *)

Lemma some_task_in_phase (p : phase) (s : pool) :
  (0 < count_phase p s)%Z -> exists i t, tasks s !! i = Some t /\ in_phase p t = true.
Proof.
  unfold count_phase, len. intros Hpos.
  destruct (List.filter (in_phase p) (tasks s)) as [|t l] eqn:Hfilter; [simpl in Hpos; lia|].
  assert (In t (List.filter (in_phase p) (tasks s))) as Hin by (rewrite Hfilter; by left).
  apply List.filter_In in Hin as [Hin Hphase].
  apply list_elem_of_In, list_elem_of_lookup in Hin as [i Hi]. eauto.
Qed.

Lemma init_pool (K : Z) (self : ReactiveVideoStream) :
  ReactiveVideoStream_init K = Return self ->
  (0 < K)%Z /\ pool_of self = {| value := K; workers := K; tasks := [] |}.
Proof.
  unfold ReactiveVideoStream_init, Semaphore, ThreadPoolExecutor. intros Hinit.
  destruct (Z.ltb_spec K 0); [discriminate|]. simpl in Hinit.
  destruct (Z.leb_spec K 0); [discriminate|]. simpl in Hinit.
  injection Hinit as <-. by split.
Qed.

Lemma reachable_invariant (K : Z) (self : ReactiveVideoStream) (evs : list event) (s : pool) :
  ReactiveVideoStream_init K = Return self ->
  run evs (pool_of self) = Some s ->
  (0 < K /\ 0 <= value s /\ value s + holding s = K /\ executing s <= workers s
   /\ workers s = K)%Z.
Proof.
  intros [HK Hpool]%init_pool Hrun. rewrite Hpool in Hrun.
  destruct (run_invariant K evs _ s Hrun) as [(Hvalue & Hsum & Hexec) Hworkers].
  { unfold holding, executing, count_phase, len. simpl. lia. }
  simpl in Hworkers. lia.
Qed.

(** X12.  No permit is lost or invented: in every reachable state the
    counter of the semaphore is [K] minus the number of calls inside the
    [async with] block; it stays within [0..K] and is back at [K] whenever no
    call is inside the block, also after calls that raised. *)
Theorem permits_are_conserved (K : Z) (self : ReactiveVideoStream) (evs : list event) (s : pool) :
  ReactiveVideoStream_init K = Return self ->
  run evs (pool_of self) = Some s ->
  value s = (K - holding s)%Z
  /\ (0 <= value s <= K)%Z
  /\ (holding s = 0%Z -> value s = K).
Proof.
  intros Hinit Hrun.
  destruct (reachable_invariant K self evs s Hinit Hrun) as (HK & Hvalue & Hsum & _).
  pose proof (count_phase_nonneg Queued s). pose proof (count_phase_nonneg Executing s).
  unfold holding in *. lia.
Qed.


(** X13.  The scheduler is never stuck: in every reachable state with a call
    that has not finished, some call can acquire a permit, start in a worker
    thread or finish, without any new call being spawned. *)
Theorem scheduler_never_stuck (K : Z) (self : ReactiveVideoStream) (evs : list event)
    (s : pool) (i : nat) (t : task) :
  ReactiveVideoStream_init K = Return self ->
  run evs (pool_of self) = Some s ->
  tasks s !! i = Some t ->
  in_phase Finished t = false ->
  exists ev s', is_spawn ev = false /\ fire ev s = Some s'.
Proof.
  intros Hinit Hrun Hi Hunfinished.
  destruct (reachable_invariant K self evs s Hinit Hrun)
    as (HK & Hvalue & Hsum & Hexec & Hworkers).
  pose proof (count_phase_nonneg Queued s) as HQ.
  pose proof (count_phase_nonneg Executing s) as HE.
  assert ((0 < executing s)%Z -> exists ev s', is_spawn ev = false /\ fire ev s = Some s')
    as Hrelease.
  { intros (j & u & Hj & Hu)%some_task_in_phase.
    exists (Release j). eexists. split; [reflexivity|]. cbn [fire]. rewrite Hj, Hu. reflexivity. }
  assert ((0 < count_phase Queued s)%Z ->
          exists ev s', is_spawn ev = false /\ fire ev s = Some s') as Hstart.
  { intros (j & u & Hj & Hu)%some_task_in_phase.
    destruct (Z.ltb_spec (executing s) (workers s)) as [Hfree|Hbusy].
    - exists (Start j). eexists. split; [reflexivity|]. cbn [fire]. rewrite Hj, Hu.
      apply Z.ltb_lt in Hfree. rewrite Hfree. reflexivity.
    - apply Hrelease. lia. }
  destruct (Z.ltb_spec 0 (value s)) as [Hpermit|Hnone].
  - destruct t as [src fid []]; try discriminate.
    + exists (Acquire i). eexists. split; [reflexivity|]. cbn [fire]. rewrite Hi. simpl.
      apply Z.ltb_lt in Hpermit. rewrite Hpermit. reflexivity.
    + apply Hstart. apply Z.lt_le_trans with 1%Z; [lia|].
      unfold count_phase, len.
      assert (In {| task_source := src; task_frame := fid; task_phase := Queued |}
                (List.filter (in_phase Queued) (tasks s))) as Hin.
      { apply List.filter_In. split; [|reflexivity].
        apply list_elem_of_In, list_elem_of_lookup. eauto. }
      destruct (List.filter (in_phase Queued) (tasks s)); [destruct Hin | simpl; lia].
    + apply Hrelease. unfold executing, count_phase, len.
      assert (In {| task_source := src; task_frame := fid; task_phase := Executing |}
                (List.filter (in_phase Executing) (tasks s))) as Hin.
      { apply List.filter_In. split; [|reflexivity].
        apply list_elem_of_In, list_elem_of_lookup. eauto. }
      destruct (List.filter (in_phase Executing) (tasks s)); [destruct Hin | simpl; lia].
  - unfold holding in Hsum.
    destruct (Z.ltb_spec 0 (executing s)) as [Hrunning|Hidle]; [by apply Hrelease|].
    apply Hstart. unfold executing in *. lia.
Qed.


(** *** The supervisor and the coordinator *)

Lemma frames_in_sizes (trace : list (list VideoFrame.t * list ProcessedFrame.t)) :
  frames_in (map snd trace) = Z.of_nat (sum_list (map (fun entry => length entry.2) trace)).
Proof.
  unfold frames_in, len. induction trace as [|entry trace IH]; simpl; [reflexivity|].
  rewrite IH. lia.
Qed.

Section MorePipelineFacts.

Context (measured : VideoFrame.t -> timestamp).
Context (completion_order : list VideoFrame.t -> list nat).
Context (create_stream : string -> AsyncGenerator VideoFrame.t).
Context (save_frames : list ProcessedFrame.t -> string -> result unit).
Context (start_time end_time : timestamp).

#[local] Abbreviation batch_process := (batch_process measured completion_order).
#[local] Abbreviation sink_loop := (sink_loop save_frames).
#[local] Abbreviation _process_single_source :=
  (_process_single_source measured completion_order create_stream save_frames).
#[local] Abbreviation create_processing_pipeline :=
  (create_processing_pipeline measured completion_order create_stream save_frames
     start_time end_time).

Lemma sink_loop_failing video_source batches upstream self j bad e :
  batches !! j = Some bad ->
  save_frames bad video_source = Raise e ->
  Forall (fun processed_batch => succeeds (save_frames processed_batch video_source) = true)
    (take j batches) ->
  sink_loop video_source batches upstream self
  = (Raise e,
     {| stream_processor := stream_processor self;
        error_count := error_count self;
        processed_count := processed_count self + frames_in (take (S j) batches) |}).
Proof.
  revert j self. induction batches as [|b batches IH]; intros [|j] self Hj Hbad Hsaved;
    simplify_eq/=.
  - rewrite Hbad. unfold add_processed. simpl. do 2 f_equal. unfold frames_in. simpl.
    rewrite ?take_0. simpl. lia.
  - apply Forall_cons in Hsaved as [Hb Hsaved].
    destruct (save_frames b video_source) as [[]|]; [|discriminate].
    rewrite (IH j _ Hj Hbad Hsaved). unfold add_processed, frames_in. simpl.
    do 2 f_equal. lia.
Qed.

(** X11.  When the sink raises on the batch at position [j], having accepted
    the batches before it, the supervisor raises that exception and has
    counted one error and the frames of the batches up to and including the
    one the sink refused: the count is increased before the sink is called. *)
Theorem failing_save_is_counted video_source self j bad e :
  yielded (batch_process (filter_frames (create_stream video_source) even_frame) 5) !! j
  = Some bad ->
  save_frames bad video_source = Raise e ->
  Forall (fun processed_batch => succeeds (save_frames processed_batch video_source) = true)
    (take j (yielded (batch_process (filter_frames (create_stream video_source) even_frame) 5))) ->
  _process_single_source video_source self
  = (Raise e,
     {| stream_processor := stream_processor self;
        error_count := error_count self + 1;
        processed_count :=
          processed_count self
          + frames_in
              (take (S j)
                 (yielded (batch_process
                             (filter_frames (create_stream video_source) even_frame) 5))) |}).
Proof.
  intros Hj Hbad Hsaved. unfold _process_single_source.
  rewrite (sink_loop_failing video_source _ _ self j bad e Hj Hbad Hsaved).
  reflexivity.
Qed.

Lemma sink_loop_counts_up video_source batches upstream self :
  (processed_count self <= processed_count (sink_loop video_source batches upstream self).2)%Z
  /\ error_count (sink_loop video_source batches upstream self).2 = error_count self.
Proof.
  revert self. induction batches as [|b batches IH]; intros self; simpl.
  - destruct upstream; simpl; split; (lia || reflexivity).
  - destruct (save_frames b video_source) as [[]|e]; simpl.
    + destruct (IH (add_processed (len b) self)) as [Hle Herr].
      unfold add_processed, len in *. simpl in *. split; [lia | exact Herr].
    + unfold len. split; [lia | reflexivity].
Qed.

Lemma run_tasks_counts_up video_sources self :
  (processed_count self
   <= processed_count
        (run_tasks measured completion_order create_stream save_frames video_sources self).2)%Z
  /\ (error_count self
      <= error_count
           (run_tasks measured completion_order create_stream save_frames video_sources self).2)%Z.
Proof.
  revert self. induction video_sources as [|source video_sources IH]; intros self;
    [simpl; lia|].
  cbn [run_tasks].
  destruct (_process_single_source source self) as [outcome self1] eqn:Hone.
  assert (processed_count self <= processed_count self1
          /\ error_count self <= error_count self1)%Z as [Hp He].
  { unfold _process_single_source in Hone.
    pose proof (sink_loop_counts_up source
                  (yielded (batch_process (filter_frames (create_stream source) even_frame) 5))
                  (raised (batch_process (filter_frames (create_stream source) even_frame) 5))
                  self) as [Hle Herr].
    destruct (sink_loop source _ _ self) as [[[]|e] self0]; injection Hone as <- <-;
      simpl in *; lia. }
  destruct (IH self1) as [Hp1 He1].
  destruct (run_tasks measured completion_order create_stream save_frames video_sources self1)
    as [outcomes self2].
  simpl in *. lia.
Qed.

(** X14.  The counters are never reset nor lowered: the total of frames in a
    report is the counter of the pipeline after the run, which is at least
    what it was before; so the report of a second run on the same pipeline
    includes the frames of the first (and is the same total when the second
    run has no source), while its success and failure counts are about the
    sources of the second run only. *)
Theorem counters_accumulate_across_runs first_sources second_sources self :
  exists first second,
    (create_processing_pipeline first_sources self).1 = Return first
    /\ (create_processing_pipeline second_sources
          (create_processing_pipeline first_sources self).2).1 = Return second
    /\ (processed_count self <= total_frames first <= total_frames second)%Z
    /\ (second_sources = [] -> total_frames second = total_frames first)
    /\ (successful second + failed second)%Z = len second_sources
    /\ (error_count self
        <= error_count (create_processing_pipeline second_sources
                          (create_processing_pipeline first_sources self).2).2)%Z.
Proof.
  unfold create_processing_pipeline.
  pose proof (run_tasks_counts_up first_sources self) as [Hp1 He1].
  destruct (run_tasks measured completion_order create_stream save_frames first_sources self)
    as [outcomes1 self1] eqn:Hfirst.
  cbn [gather_return_exceptions fst snd].
  pose proof (run_tasks_counts_up second_sources self1) as [Hp2 He2].
  assert (second_sources = [] ->
          (run_tasks measured completion_order create_stream save_frames
             second_sources self1).2 = self1) as Hnone.
  { by intros ->. }
  assert (length (run_tasks measured completion_order create_stream save_frames
                    second_sources self1).1 = length second_sources) as Hlen.
  { rewrite run_tasks_alone. simpl. by rewrite length_map. }
  destruct (run_tasks measured completion_order create_stream save_frames second_sources self1)
    as [outcomes2 self2] eqn:Hrun2.
  simpl in *. eexists _, _. split; [reflexivity|]. split; [reflexivity|]. simpl.
  split; [lia|]. split.
  - intros Hempty. by rewrite (Hnone Hempty).
  - split; [|lia]. rewrite filter_partition_length. unfold len. by rewrite Hlen.
Qed.

End MorePipelineFacts.

Section RepositoryPipeline.

Context (captured_at : string -> Z -> timestamp).
Context (measured : VideoFrame.t -> timestamp).
Context (completion_order : list VideoFrame.t -> list nat).
Context (start_time end_time : timestamp).

Lemma sink_loop_saves video_source batches self :
  sink_loop _save_processed_frames video_source batches None self
  = (Return tt,
     {| stream_processor := stream_processor self;
        error_count := error_count self;
        processed_count := processed_count self + frames_in batches |}).
Proof.
  unfold frames_in. revert self. induction batches as [|b batches IH]; intros self; simpl.
  - destruct self. simpl. by rewrite Z.add_0_r.
  - rewrite IH. unfold add_processed. simpl. do 2 f_equal. lia.
Qed.

Lemma repository_source_counts video_source self :
  _process_single_source measured completion_order (create_video_stream captured_at)
    _save_processed_frames video_source self
  = (Return tt,
     {| stream_processor := stream_processor self;
        error_count := error_count self;
        processed_count := processed_count self + 50 |}).
Proof.
  destruct (wired_stream_well_formed captured_at video_source) as (Hup & Hall & Hids & _).
  unfold _process_single_source.
  set (stream := filter_frames (create_video_stream captured_at video_source) even_frame) in *.
  unfold batch_process, batch_process_trace. cbn [yielded raised].
  assert (length (yielded stream) = 50%nat) as Hlen.
  { apply (f_equal length) in Hids. unfold ids_of_frames in Hids.
    rewrite length_map in Hids. rewrite Hids. reflexivity. }
  destruct (batch_loop_sizes measured completion_order 5 (yielded stream) [])
    as [Hraised Hsizes]; [lia | simpl; lia | exact Hall |].
  change (length [] + length (yielded stream))%nat with (length (yielded stream)) in Hsizes.
  rewrite Hlen in Hsizes.
  rewrite Hup. change (Z.of_nat 5) with 5%Z in *. rewrite Hraised.
  rewrite sink_loop_saves, frames_in_sizes, Hsizes. reflexivity.
Qed.

(** X10.  On a pipeline as [VideoProcessingPipeline()] constructs it, with the
    frame source and the sink of the repository, every source succeeds and
    contributes 50 frames, whatever the clock readings and the completion
    order: the report has as many successes as sources, no failure and 50
    frames per source (the count [process_videos_sync] reports for the same
    sources), and no error is counted. *)
Theorem repository_pipeline_counts video_sources self :
  VideoProcessingPipeline_init = Return self ->
  create_processing_pipeline measured completion_order (create_video_stream captured_at)
    _save_processed_frames start_time end_time video_sources self
  = (Return {| total_time := (end_time - start_time)%Z;
               successful := len video_sources;
               failed := 0%Z;
               total_frames := (50 * len video_sources)%Z |},
     {| stream_processor := stream_processor self;
        error_count := 0%Z;
        processed_count := (50 * len video_sources)%Z |}).
Proof.
  intros [= <-]. unfold create_processing_pipeline.
  assert (forall self,
            run_tasks measured completion_order (create_video_stream captured_at)
              _save_processed_frames video_sources self
            = (map (fun _ => Return tt) video_sources,
               {| stream_processor := stream_processor self;
                  error_count := error_count self;
                  processed_count := (processed_count self + 50 * len video_sources)%Z |}))
    as ->.
  { unfold len. induction video_sources as [|source video_sources IH]; intros self.
    - simpl. destruct self. simpl. by rewrite Z.add_0_r.
    - cbn [run_tasks]. rewrite repository_source_counts, IH. simpl.
      do 2 f_equal. lia. }
  simpl. unfold len.
  assert (forall l : list string,
            List.filter isinstance_Exception (map (fun _ => Return tt : result unit) l) = []
            /\ List.filter (fun r => negb (isinstance_Exception r))
                 (map (fun _ => Return tt : result unit) l)
               = map (fun _ => Return tt) l) as Hfilter.
  { induction l as [|x l [IH1 IH2]]; simpl; [done|]. by rewrite IH1, IH2. }
  destruct (Hfilter video_sources) as [-> ->]. by rewrite length_map.
Qed.

End RepositoryPipeline.

(** *** The registry, the endpoints and the event generator *)

(** X15.  Starting a stream that is absent and stopping it again answers
    [True] and leaves the registry exactly as it was. *)
Theorem start_then_stop_restores (now : timestamp) (self : VideoStreamer) (stream_id : string)
    (source : option string) :
  stream_id ∉ dom (active_streams self) ->
  stop_stream ((start_stream now self stream_id source).2) stream_id = (true, self).
Proof.
  intros Habsent%not_elem_of_dom. unfold start_stream. rewrite Habsent. simpl.
  unfold stop_stream. simpl. rewrite lookup_insert_eq. simpl.
  rewrite delete_insert_eq, delete_id by exact Habsent. by destruct self.
Qed.

Lemma start_stream_keeps_active now self stream_id source :
  map_Forall (fun _ info => StreamInfo.status info = "active") (active_streams self) ->
  map_Forall (fun _ info => StreamInfo.status info = "active")
    (active_streams (start_stream now self stream_id source).2).
Proof.
  intros Hinv. unfold start_stream.
  destruct (active_streams self !! stream_id) eqn:Hid; simpl; [exact Hinv|].
  by apply map_Forall_insert_2.
Qed.

Lemma stop_stream_keeps_active self stream_id :
  map_Forall (fun _ info => StreamInfo.status info = "active") (active_streams self) ->
  map_Forall (fun _ info => StreamInfo.status info = "active")
    (active_streams (stop_stream self stream_id).2).
Proof.
  intros Hinv. unfold stop_stream.
  destruct (active_streams self !! stream_id) eqn:Hid; simpl; [|exact Hinv].
  by apply map_Forall_delete.
Qed.

(** X16.  After any history of [start_stream] and [stop_stream] calls on a
    new registry, every entry has the status [active]. *)
Theorem registry_entries_stay_active (calls : list registry_call) (stream_id : string)
    (info : StreamInfo.t) :
  active_streams (replay calls VideoStreamer_init) !! stream_id = Some info ->
  StreamInfo.status info = "active".
Proof.
  assert (forall self,
            map_Forall (fun _ info => StreamInfo.status info = "active") (active_streams self) ->
            map_Forall (fun _ info => StreamInfo.status info = "active")
              (active_streams (replay calls self))) as Hreplay.
  { induction calls as [|[now id source|id] calls IH]; intros self Hinv; simpl; [exact Hinv| |].
    - apply IH. by apply start_stream_keeps_active.
    - apply IH. by apply stop_stream_keeps_active. }
  intros Hlookup. apply (Hreplay VideoStreamer_init) in Hlookup; [exact Hlookup|].
  apply map_Forall_empty.
Qed.

Section EndpointFacts.

Context (isoformat : timestamp -> string).


(** X18.  The stop endpoint answers 200 exactly for an active stream and 404
    exactly for an absent one; after it, the info and the stream endpoints
    answer 404 for that id and a second stop answers 404 and changes
    nothing. *)
Theorem stopped_stream_is_gone (streamer : VideoStreamer) (stream_id : string)
    (observed : list (VideoStreamer * string)) :
  (Response.status ((Api.stop_stream streamer stream_id).1) = 200%Z
   <-> stream_id ∈ dom (active_streams streamer))
  /\ (Response.status ((Api.stop_stream streamer stream_id).1) = 404%Z
      <-> stream_id ∉ dom (active_streams streamer))
  /\ Response.status (Api.get_stream_info isoformat ((Api.stop_stream streamer stream_id).2)
                        stream_id) = 404%Z
  /\ Response.status (Api.get_stream ((Api.stop_stream streamer stream_id).2) stream_id observed)
     = 404%Z
  /\ Api.stop_stream ((Api.stop_stream streamer stream_id).2) stream_id
     = (Response.mk (Response.Json [("error", Some "Stream not found")]) 404,
        (Api.stop_stream streamer stream_id).2).
Proof.
  rewrite not_elem_of_dom, elem_of_dom.
  unfold Api.stop_stream, stop_stream, Api.get_stream_info, Api.get_stream.
  destruct (active_streams streamer !! stream_id) as [info|] eqn:Hactive; simpl.
  - rewrite !lookup_delete_eq. simpl. repeat split; try done; eauto.
  - rewrite !Hactive. simpl. repeat split; try done; by intros [? ?].
Qed.

(** X19.  The listing endpoint answers 200 with one entry per active stream:
    as many entries as the registry has streams, the entry of every active
    stream, and nothing else. *)
Theorem listing_matches_registry (streamer : VideoStreamer) :
  exists streams,
    Api.list_streams isoformat streamer = Response.mk (Response.JsonStreams streams) 200
    /\ length streams = size (active_streams streamer)
    /\ (forall stream_id info,
          active_streams streamer !! stream_id = Some info ->
          Api.stream_items isoformat stream_id info ∈ streams)
    /\ (forall items,
          items ∈ streams ->
          exists stream_id info,
            active_streams streamer !! stream_id = Some info
            /\ items = Api.stream_items isoformat stream_id info).
Proof.
  unfold Api.list_streams. eexists. split; [reflexivity|].
  split; [by rewrite length_map, length_map_to_list|]. split.
  - intros stream_id info Hactive. apply list_elem_of_fmap.
    exists (stream_id, info). split; [reflexivity|]. by apply elem_of_map_to_list.
  - intros items ([stream_id info] & -> & Hin)%list_elem_of_fmap.
    apply elem_of_map_to_list in Hin. eauto.
Qed.

End EndpointFacts.

Lemma generate_stream_length stream_id observed :
  length (generate_stream stream_id observed) <= length observed.
Proof.
  induction observed as [|[self now] later IH]; simpl; [lia|].
  destruct (active_streams self !! stream_id); simpl; lia.
Qed.

(** X20.  [generate_stream] emits one event per evaluation of its loop test
    that finds the stream, and ends at the first evaluation that does not:
    nothing is emitted afterwards, also when the stream is started again. *)
Theorem generate_stream_ends_when_stopped (stream_id : string)
    (before later : list (VideoStreamer * string)) (gone : VideoStreamer) (now : string) :
  stream_id ∉ dom (active_streams gone) ->
  generate_stream stream_id (before ++ (gone, now) :: later) = generate_stream stream_id before
  /\ length (generate_stream stream_id (before ++ (gone, now) :: later)) <= length before
  /\ (Forall (fun seen => stream_id ∈ dom (active_streams seen.1)) before ->
      length (generate_stream stream_id (before ++ (gone, now) :: later)) = length before).
Proof.
  intros Hgone%not_elem_of_dom.
  assert (generate_stream stream_id (before ++ (gone, now) :: later)
          = generate_stream stream_id before) as Heq.
  { induction before as [|[self t] before IH]; simpl; [by rewrite Hgone|].
    destruct (active_streams self !! stream_id); [by rewrite IH | reflexivity]. }
  rewrite Heq. split; [reflexivity|]. split; [apply generate_stream_length|]. clear Heq.
  induction 1 as [|[self t] before [info Hseen]%elem_of_dom _ IH]; simpl; [reflexivity|].
  simpl in Hseen. rewrite Hseen. simpl. by rewrite IH.
Qed.

(** ** The further properties at concrete inputs *)

Lemma utf8_round_trip_witness : encode [0x20AC%N; 0x41%N] = Return [xe2; x82; xac; x41].
Proof. apply utf8_round_trip. reflexivity. Defined.

Lemma batches_conserve_frames_witness :
  concat (map ids_of_batch
            (yielded (batch_process instantly last_first (stream_of (map plain (range 7))) 3)))
  = ids_of_frames (map plain (range 7)).
Proof.
  apply (batches_conserve_frames instantly last_first (stream_of (map plain (range 7))) 3).
  reflexivity.
Defined.

Lemma filter_frames_compose_witness :
  filter_frames (filter_frames (stream_of (map plain (range 6))) even_frame) below_four
  = filter_frames (filter_frames (stream_of (map plain (range 6))) below_four) even_frame.
Proof.
  apply (filter_frames_compose (stream_of (map plain (range 6))) even_frame below_four).
  repeat constructor.
Defined.

Example raising_filters_do_not_commute :
  filter_frames (filter_frames (stream_of (map plain (range 6))) even_until_four) below_four
  = Generator [plain 0; plain 2] (Some (ValueError "no verdict for frame 4"))
  /\ filter_frames (filter_frames (stream_of (map plain (range 6))) below_four) even_until_four
     = Generator [plain 0; plain 2] None.
Proof. split; reflexivity. Qed.

Lemma repository_pipeline_counts_witness :
  create_processing_pipeline instantly last_first (create_video_stream wall_clock)
    _save_processed_frames 3%Z 10%Z ["video_source_0"; "video_source_1"] blank_pipeline
  = (Return {| total_time := 7%Z; successful := 2%Z; failed := 0%Z; total_frames := 100%Z |},
     {| stream_processor := stream_processor blank_pipeline;
        error_count := 0%Z;
        processed_count := 100%Z |}).
Proof.
  apply (repository_pipeline_counts wall_clock instantly last_first 3%Z 10%Z
           ["video_source_0"; "video_source_1"] blank_pipeline).
  reflexivity.
Defined.

Lemma permits_are_conserved_witness :
  exists s,
    run busy_schedule (pool_of two_workers) = Some s
    /\ value s = (2 - holding s)%Z
    /\ (0 <= value s <= 2)%Z
    /\ (holding s = 0%Z -> value s = 2%Z).
Proof.
  eexists. split; [reflexivity|].
  apply (permits_are_conserved 2 two_workers busy_schedule); reflexivity.
Defined.

Lemma scheduler_never_stuck_witness :
  exists s,
    run busy_schedule (pool_of two_workers) = Some s
    /\ exists ev s', is_spawn ev = false /\ fire ev s = Some s'.
Proof.
  eexists. split; [reflexivity|].
  eapply (scheduler_never_stuck 2 two_workers busy_schedule _ 2); reflexivity.
Defined.

Lemma failing_save_is_counted_witness :
  _process_single_source instantly in_submission_order (create_video_stream wall_clock)
    refuses_second_batch "video_source_0" blank_pipeline
  = (Raise (OSError "disk full"),
     {| stream_processor := stream_processor blank_pipeline;
        error_count := 1%Z;
        processed_count := 10%Z |}).
Proof.
  erewrite (failing_save_is_counted instantly in_submission_order
              (create_video_stream wall_clock) refuses_second_batch "video_source_0"
              blank_pipeline 1);
    [reflexivity | reflexivity | reflexivity | repeat constructor].
Defined.

Lemma start_then_stop_restores_witness :
  stop_stream ((start_stream 9%Z one_stream "cam2" None).2) "cam2" = (true, one_stream).
Proof.
  apply (start_then_stop_restores 9%Z one_stream "cam2" None).
  apply not_elem_of_dom. reflexivity.
Defined.

Lemma registry_entries_stay_active_witness :
  exists info,
    active_streams (replay some_calls VideoStreamer_init) !! "cam2" = Some info
    /\ StreamInfo.status info = "active".
Proof.
  eexists. split; [reflexivity|].
  eapply (registry_entries_stay_active some_calls "cam2"). reflexivity.
Defined.


Lemma generate_stream_ends_when_stopped_witness :
  length (generate_stream "cam1"
            ([(one_stream, "12:00:00"); (one_stream, "12:00:01")]
             ++ (VideoStreamer_init, "12:00:02") :: [(one_stream, "12:00:03")]))
  = 2%nat.
Proof.
  apply (generate_stream_ends_when_stopped "cam1"
           [(one_stream, "12:00:00"); (one_stream, "12:00:01")]
           [(one_stream, "12:00:03")] VideoStreamer_init "12:00:02").
  - apply not_elem_of_dom. reflexivity.
  - repeat constructor; apply elem_of_dom; eexists; reflexivity.
Defined.
